(** * utf8clen: length of one UTF-8 character in a C string

    A shallow embedding of [src/utf8clen.h] and the proofs of its
    specification.  The C function reads bytes of a NUL-terminated string
    through the pointer [s], may store the length of an illegal run through
    the pointer [illlen], and may set [errno].  The embedding threads these
    effects through a small state-and-fault monad; every load, store and
    [errno] assignment is recorded in an event trace, so that statements
    about what the function reads and writes are statements about that
    trace. *)

From Stdlib Require Import ZArith List Bool Lia.
From Stdlib Require Import Strings.Byte.
Import ListNotations.
Local Open Scope Z_scope.

(** ** Bytes and strings *)

(** [unsigned char]: one of the 256 values of [Byte.byte]; [val] is its
    value as an integer. *)
Definition val (b : byte) : Z := Z.of_N (Byte.to_N b).

(** The array of [unsigned char] that [s] points to. *)
Definition cstr := list byte.

(** A pointer argument: [NULL], or the address of an object. *)
Inductive pointer (A : Type) : Type :=
| NULL
| Ref (target : A).
Arguments NULL {A}.
Arguments Ref {A} target.

(** The [size_t] object that receives the length of the illegal run.  Its
    contents live in the state, the pointer only names it. *)
Inductive out_object : Type := IllLen.

(** <stdint.h> and <errno.h> for an LP64 target. *)
Definition SIZE_MAX : Z := 18446744073709551615.
Definition EINVAL : Z := 22.

(** ** State, events and the monad *)

Inductive event : Type :=
| EvRead (i : Z)            (* s[i] was loaded *)
| EvStoreIlllen (v : Z)     (* *illlen = v *)
| EvSetErrno (e : Z).       (* errno = e *)

Record state : Type := mkState {
  illlen_obj : Z;           (* contents of the object behind illlen *)
  errno : Z;
  trace : list event        (* most recent event first *)
}.

Inductive outcome (A : Type) : Type :=
| Ok (a : A) (st : state)
| OutOfBounds (i : Z)       (* a load outside the array: undefined in C *)
| OutOfFuel.                (* the loop bound of the embedding was hit *)
Arguments Ok {A} a st.
Arguments OutOfBounds {A} i.
Arguments OutOfFuel {A}.

Definition M (A : Type) : Type := state -> outcome A.

Definition ret {A} (a : A) : M A := fun st => Ok a st.

Definition bind {A B} (m : M A) (k : A -> M B) : M B :=
  fun st =>
    match m st with
    | Ok a st' => k a st'
    | OutOfBounds i => OutOfBounds i
    | OutOfFuel => OutOfFuel
    end.

Notation "x <- m ;; k" := (bind m (fun x => k))
  (at level 61, m at next level, right associativity).
Notation "m ;;; k" := (bind m (fun _ => k))
  (at level 61, right associativity).

Definition log (e : event) (st : state) : state :=
  mkState (illlen_obj st) (errno st) (e :: trace st).

(** The element of the array at index [i], if the array has one. *)
Definition byte_at (s : cstr) (i : Z) : option byte :=
  if i <? 0 then None else nth_error s (Z.to_nat i).

(** [s[i]] *)
Definition load (s : cstr) (i : Z) : M byte :=
  fun st =>
    match byte_at s i with
    | Some b => Ok b (log (EvRead i) st)
    | None => OutOfBounds i
    end.

(** [*illlen = v] *)
Definition store_illlen (v : Z) : M unit :=
  fun st => Ok tt (mkState v (errno st) (EvStoreIlllen v :: trace st)).

(** [errno = e] *)
Definition set_errno (e : Z) : M unit :=
  fun st => Ok tt (mkState (illlen_obj st) e (EvSetErrno e :: trace st)).

(** Short-circuit [&&] of two conditions that may load. *)
Definition andM (a b : M bool) : M bool :=
  x <- a ;; if x then b else ret false.
Infix "&&&" := andM (at level 40, left associativity).

(** ** The macros of utf8clen.h *)

(** [#define is_utf8tail(c) (((c) & 0xC0) == 0x80)] *)
Definition is_utf8tail (c : byte) : bool :=
  Z.land (val c) 0xC0 =? 0x80.

(** [#define is_utf8firstb(c)] *)
Definition is_utf8firstb (c : byte) : bool :=
  (val c <=? 0x7F)
  || ((0xC2 <=? val c) && (val c <=? 0xDF))
  || ((0xE0 <=? val c) && (val c <=? 0xEF))
  || ((0xF0 <=? val c) && (val c <=? 0xF4)).

(** The condition of the [while] of [count_illegal_sequences]:
    [c && len < (size_t)max && !is_utf8firstb(c)]. *)
Definition run_continues (c : byte) (len max : Z) : bool :=
  negb (val c =? 0) && (len <? max) && negb (is_utf8firstb c).

(** The [while] loop: [len++; c = s[len];] as long as the condition holds.
    It returns the final [len]. *)
Fixpoint count_loop (fuel : nat) (s : cstr) (max len : Z) (c : byte)
  : M Z :=
  if run_continues c len max then
    match fuel with
    | O => fun _ => OutOfFuel
    | S fuel' =>
        let len := len + 1 in
        c <- load s len ;;
        count_loop fuel' s max len c
    end
  else ret len.

(** [#define count_illegal_sequences(max)].  The loop loads a new byte on
    every turn, so it takes fewer turns than the array has bytes. *)
Definition count_illegal_sequences (s : cstr) (max : Z) : M unit :=
  let len := 1 in
  c <- load s len ;;
  len <- count_loop (length s) s max len c ;;
  store_illlen len.

(** The tests on [s[i]] that occur in the conditions. *)
Definition tail_at (s : cstr) (i : Z) : M bool :=
  c <- load s i ;; ret (is_utf8tail c).
Definition ge_at (s : cstr) (i : Z) (lo : Z) : M bool :=
  c <- load s i ;; ret (lo <=? val c).
Definition le_at (s : cstr) (i : Z) (hi : Z) : M bool :=
  c <- load s i ;; ret (val c <=? hi).

(** ** utf8clen *)

(** The body after the parameter check. *)
Definition utf8clen_body (s : cstr) : M Z :=
  c <- load s 0 ;;
  (* 1 byte: 00-7F *)
  if val c <=? 0x7F then ret 1
  (* 2 byte: C2-DF 80-BF *)
  else if (0xC2 <=? val c) && (val c <=? 0xDF) then
    ok <- tail_at s 1 ;;
    if ok then ret 2
    else count_illegal_sequences s 2 ;;; ret 0
  (* 3 byte: E0 A0-BF 80-BF *)
  else if val c =? 0xE0 then
    ok <- ge_at s 1 0xA0 &&& le_at s 1 0xBF &&& tail_at s 2 ;;
    if ok then ret 3
    else count_illegal_sequences s 3 ;;; ret 0
  (* 3 byte: E1-EC 2(80-BF), EE-EF 2(80-BF) *)
  else if ((0xE1 <=? val c) && (val c <=? 0xEC))
          || ((0xEE <=? val c) && (val c <=? 0xEF)) then
    ok <- tail_at s 1 &&& tail_at s 2 ;;
    if ok then ret 3
    else count_illegal_sequences s 3 ;;; ret 0
  (* 3 byte: ED 80-9F 80-BF *)
  else if val c =? 0xED then
    ok <- ge_at s 1 0x80 &&& le_at s 1 0x9F &&& tail_at s 2 ;;
    if ok then ret 3
    else count_illegal_sequences s 3 ;;; ret 0
  (* 4 byte: F0 90-BF 2(80-BF) *)
  else if val c =? 0xF0 then
    ok <- ge_at s 1 0x90 &&& le_at s 1 0xBF &&& tail_at s 2
          &&& tail_at s 3 ;;
    if ok then ret 4
    else count_illegal_sequences s 4 ;;; ret 0
  (* 4 byte: F1-F3 3(80-BF) *)
  else if (0xF1 <=? val c) && (val c <=? 0xF3) then
    ok <- tail_at s 1 &&& tail_at s 2 &&& tail_at s 3 ;;
    if ok then ret 4
    else count_illegal_sequences s 4 ;;; ret 0
  (* 4 byte: F4 80-8F 2(80-BF) *)
  else if val c =? 0xF4 then
    ok <- ge_at s 1 0x80 &&& le_at s 1 0x8F &&& tail_at s 2
          &&& tail_at s 3 ;;
    if ok then ret 4
    else count_illegal_sequences s 4 ;;; ret 0
  else
    count_illegal_sequences s SIZE_MAX ;;; ret 0.

(** [size_t utf8clen(const unsigned char *s, size_t *illlen)] *)
Definition utf8clen (s : pointer cstr) (illlen : pointer out_object)
  : M Z :=
  match s, illlen with
  | Ref buf, Ref IllLen => utf8clen_body buf
  | _, _ => set_errno EINVAL ;;; ret SIZE_MAX
  end.

(** ** The harness of test/test_utf8clen.c *)

(** [test_case]: [illlen] starts at 0; the pair is the return value and
    the final [illlen]. *)
Definition test_case (input : cstr) : option (Z * Z) :=
  match utf8clen (Ref input) (Ref IllLen) (mkState 0 0 []) with
  | Ok len st => Some (len, illlen_obj st)
  | _ => None
  end.

(** ** Vocabulary of the specification *)

(** The array holds a NUL somewhere. *)
Definition nul_terminated (s : cstr) : Prop := In x00 s.

(** Index of the first NUL (the length of the array if it has none). *)
Fixpoint strlen (s : cstr) : Z :=
  match s with
  | [] => 0
  | b :: tl => if val b =? 0 then 0 else 1 + strlen tl
  end.

(** The byte at index [i], with an absent byte read as NUL. *)
Definition get (s : cstr) (i : Z) : byte :=
  match byte_at s i with
  | Some b => b
  | None => x00
  end.

Definition in_range (lo hi x : Z) : bool := (lo <=? x) && (x <=? hi).

(** Continuation byte, 80-BF. *)
Definition is_cont (b : byte) : bool := in_range 0x80 0xBF (val b).

(** Table 3-7 of the Unicode Standard, Well-Formed UTF-8 Byte Sequences,
    read off the first bytes of [s]: the length of the well-formed
    sequence that starts [s], if there is one. *)
Definition well_formed_len (s : cstr) : option Z :=
  let b0 := val (get s 0) in
  let b1 := val (get s 1) in
  let c1 := is_cont (get s 1) in
  let c2 := is_cont (get s 2) in
  let c3 := is_cont (get s 3) in
  if b0 <=? 0x7F then Some 1
  else if in_range 0xC2 0xDF b0 then
    if c1 then Some 2 else None
  else if b0 =? 0xE0 then
    if in_range 0xA0 0xBF b1 && c2 then Some 3 else None
  else if in_range 0xE1 0xEC b0 || in_range 0xEE 0xEF b0 then
    if c1 && c2 then Some 3 else None
  else if b0 =? 0xED then
    if in_range 0x80 0x9F b1 && c2 then Some 3 else None
  else if b0 =? 0xF0 then
    if in_range 0x90 0xBF b1 && c2 && c3 then Some 4 else None
  else if in_range 0xF1 0xF3 b0 then
    if c1 && c2 && c3 then Some 4 else None
  else if b0 =? 0xF4 then
    if in_range 0x80 0x8F b1 && c2 && c3 then Some 4 else None
  else None.

(** The cap on the illegal run that goes with a lead byte: 2, 3 or 4 for
    the lead of a 2-, 3- or 4-byte sequence, no cap below [SIZE_MAX] for a
    byte that is never a lead. *)
Definition illegal_cap (lead : byte) : Z :=
  let c := val lead in
  if in_range 0xC2 0xDF c then 2
  else if in_range 0xE0 0xEF c then 3
  else if in_range 0xF0 0xF4 c then 4
  else SIZE_MAX.

(** A byte that the run swallows: present, not NUL, not a first byte. *)
Definition illegal_byte (s : cstr) (i : Z) : Prop :=
  exists b, byte_at s i = Some b /\ val b <> 0 /\ is_utf8firstb b = false.

(** Why the run ends at [k]. *)
Definition run_stops (s : cstr) (max k : Z) : Prop :=
  k = max \/
  exists b, byte_at s k = Some b /\ (val b = 0 \/ is_utf8firstb b = true).

(** [k] is the length of the illegal run of [s] under the cap [max]. *)
Definition illegal_run (s : cstr) (max k : Z) : Prop :=
  1 <= k <= max /\
  (forall i, 1 <= i < k -> illegal_byte s i) /\
  run_stops s max k.

Definition is_read (e : event) : Prop := exists i, e = EvRead i.

(** [st'] is [st] after the loads [evs], each at an index up to the first
    NUL of [s]; nothing else changed. *)
Definition safe_reads (s : cstr) (st st' : state) (evs : list event)
  : Prop :=
  st' = mkState (illlen_obj st) (errno st) (evs ++ trace st) /\
  Forall (fun e => exists i, e = EvRead i /\ 0 <= i <= strlen s) evs.

(** The three results of the specification. *)
Inductive classification : Type :=
| Valid (n : Z)
| Invalid (k : Z)
| ParameterError.

(** The result that a return value and the final [*illlen] stand for. *)
Definition classify (r : Z) (st' : state) : classification :=
  if r =? 0 then Invalid (illlen_obj st')
  else if r =? SIZE_MAX then ParameterError
  else Valid r.

(** [checks s m p]: the condition [m] evaluates to [p], loading only up
    to the first NUL. *)
Definition checks (s : cstr) (m : M bool) (p : bool) : Prop :=
  forall st, exists st' evs, m st = Ok p st' /\ safe_reads s st st' evs.

(** What a call leaves behind, seen from the state [st] it started in:
    for [w = Some n] the return value [n] and only safe loads, for
    [w = None] the return value 0, safe loads, and one store of the
    length of the illegal run under the cap [max]. *)
Definition post (s : cstr) (max : Z) (st : state) (w : option Z)
  (r : Z) (st' : state) : Prop :=
  match w with
  | Some n => r = n /\ exists evs, safe_reads s st st' evs
  | None =>
      r = 0 /\
      exists k st1 evs,
        safe_reads s st st1 evs /\
        st' = mkState k (errno st1) (EvStoreIlllen k :: trace st1) /\
        illegal_run s max k
  end.

(** A first byte in the words of the specification: ASCII, or the lead of
    a 2-, 3- or 4-byte sequence. *)
Definition first_byte (b : byte) : Prop :=
  val b <= 0x7F \/ 0xC2 <= val b <= 0xDF \/ 0xE0 <= val b <= 0xEF \/
  0xF0 <= val b <= 0xF4.

(** The values stored through [illlen] by the events [evs]. *)
Definition stores (evs : list event) : list Z :=
  flat_map (fun e => match e with EvStoreIlllen v => [v] | _ => [] end) evs.

(** A call with both pointers set classifies the string as [c]. *)
Definition yields (s : cstr) (st : state) (c : classification) : Prop :=
  exists r st',
    utf8clen (Ref s) (Ref IllLen) st = Ok r st' /\ classify r st' = c.

(** What the header asks of the caller: a string that is passed along
    with an output pointer is NUL-terminated. *)
Definition valid_call (s : pointer cstr) (illlen : pointer out_object)
  : Prop :=
  match s, illlen with
  | Ref buf, Ref _ => nul_terminated buf
  | _, _ => True
  end.

(** The byte with value [z] (NUL outside 0..255). *)
Definition byte_of (z : Z) : byte :=
  match Byte.of_N (Z.to_N z) with
  | Some b => b
  | None => x00
  end.

(** The reference encoder of the round-trip property: the UTF-8 encoding
    form of the Unicode Standard (Table 3-6, UTF-8 Bit Distribution). *)
Definition utf8_encode (cp : Z) : list byte :=
  let tail sh := byte_of (Z.lor 0x80 (Z.land (Z.shiftr cp sh) 0x3F)) in
  if cp <? 0x80 then
    [byte_of cp]
  else if cp <? 0x800 then
    [byte_of (Z.lor 0xC0 (Z.shiftr cp 6)); tail 0]
  else if cp <? 0x10000 then
    [byte_of (Z.lor 0xE0 (Z.shiftr cp 12)); tail 6; tail 0]
  else
    [byte_of (Z.lor 0xF0 (Z.shiftr cp 18)); tail 12; tail 6; tail 0].

(** The scalar value that a sequence of 1 to 4 bytes carries in the
    payload bits of Table 3-6. *)
Definition utf8_decode (bs : list byte) : option Z :=
  match bs with
  | [b0] => Some (val b0)
  | [b0; b1] => Some ((val b0 - 0xC0) * 2 ^ 6 + (val b1 - 0x80))
  | [b0; b1; b2] =>
      Some ((val b0 - 0xE0) * 2 ^ 12 + (val b1 - 0x80) * 2 ^ 6
            + (val b2 - 0x80))
  | [b0; b1; b2; b3] =>
      Some ((val b0 - 0xF0) * 2 ^ 18 + (val b1 - 0x80) * 2 ^ 12
            + (val b2 - 0x80) * 2 ^ 6 + (val b3 - 0x80))
  | _ => None
  end.

(** [m] never runs out of fuel. *)
Definition within_fuel {A} (m : M A) : Prop :=
  forall st, m st <> OutOfFuel.

Create HintDb fuel.

(** ** Vocabulary of the further properties *)

(** A Unicode scalar value: a code point that is not a surrogate. *)
Definition scalar_value (cp : Z) : Prop :=
  0 <= cp <= 0x10FFFF /\ ~ (0xD800 <= cp <= 0xDFFF).

(** Table 3-7 as a relation between the values of the first four bytes
    and the length of the sequence. *)
Definition table_row (v0 v1 v2 v3 n : Z) : Prop :=
  (n = 1 /\ 0 <= v0 <= 0x7F) \/
  (n = 2 /\ 0xC2 <= v0 <= 0xDF /\ 0x80 <= v1 <= 0xBF) \/
  (n = 3 /\ 0xE0 <= v0 <= 0xEF /\ 0x80 <= v1 <= 0xBF /\
   0x80 <= v2 <= 0xBF /\
   (v0 = 0xE0 -> 0xA0 <= v1) /\ (v0 = 0xED -> v1 <= 0x9F)) \/
  (n = 4 /\ 0xF0 <= v0 <= 0xF4 /\ 0x80 <= v1 <= 0xBF /\
   0x80 <= v2 <= 0xBF /\ 0x80 <= v3 <= 0xBF /\
   (v0 = 0xF0 -> 0x90 <= v1) /\ (v0 = 0xF4 -> v1 <= 0x8F)).

(** How far a caller moves the cursor after a call: by the return value,
    or by [*illlen] when the return value is 0. *)
Definition advance (r : Z) (st' : state) : Z :=
  if r =? 0 then illlen_obj st' else r.

(** A byte that ends an illegal run: NUL or a first byte. *)
Definition stopper (c : byte) : Prop := val c = 0 \/ first_byte c.

(** [st'] is [st] after loads at indexes that satisfy [P], and nothing
    else. *)
Inductive reads_only (P : Z -> Prop) : state -> state -> Prop :=
| reads_done st : reads_only P st st
| reads_more st st' i :
    reads_only P st st' -> P i -> reads_only P st (log (EvRead i) st').

(** The index [i] lies behind continuation bytes only: it is at least 1
    and the bytes at 1 .. i-1 are in 80-BF. *)
Definition guarded (s : cstr) (i : Z) : Prop :=
  1 <= i /\ forall j, 1 <= j < i -> 0x80 <= val (get s j) <= 0xBF.

(** Whenever the condition [m] returns, it has loaded only at indexes
    that satisfy [P]; when it returns true, [F] holds. *)
Definition cond_reads (P : Z -> Prop) (m : M bool) (F : Prop) : Prop :=
  forall st x st',
    m st = Ok x st' -> reads_only P st st' /\ (x = true -> F).

(** ** Tactics *)

(** Decides the comparisons of a goal one at a time, dropping the cases
    that contradict the hypotheses. *)
Ltac decide_cmp :=
  repeat (match goal with
          | |- context [?a <=? ?b] => destruct (Z.leb_spec a b); try lia
          | |- context [?a =? ?b] => destruct (Z.eqb_spec a b); try lia
          end; cbn [andb orb negb]);
  try reflexivity.

(** * Proofs *)

(** ** The test suite runs on the embedding *)

Example test_1byte_sequences :
  map test_case
    [ ["A"; x00]; ["1"; x00]; [" "; x00]; [x00; x00];
      [x80; x00]; [xbf; x00]; [x80; x80; x80; x00] ]%byte
  = map Some [ (1, 0); (1, 0); (1, 0); (1, 0); (0, 1); (0, 1); (0, 3) ].
Proof. vm_compute. reflexivity. Qed.

Example test_2byte_sequences :
  map test_case
    [ [xc3; xa1; x00]; [xc3; xa9; x00]; [xc2; xa9; x00];
      [xc3; xa1; "Z"; x00];
      [xc3; x00]; [xc3; x00; x00]; [xc3; xc0; x00] ]%byte
  = map Some [ (2, 0); (2, 0); (2, 0); (2, 0); (0, 1); (0, 1); (0, 2) ].
Proof. vm_compute. reflexivity. Qed.

Example test_3byte_sequences :
  map test_case
    [ [xe0; xb8; x8b; x00]; [xe3; x81; x82; x00]; [xe4; xb8; xad; x00];
      [xed; x80; x80; x00]; [xed; x9f; xbf; x00];
      [xee; x80; x80; x00]; [xef; xbb; xbf; x00];
      [xe0; x70; x82; x00]; [xe0; x00];
      [xe3; x81; x00]; [xe3; x81; x00; x00];
      [xed; xa0; x80; x00]; [xed; x00];
      [xee; x81; x00; x00]; [xef; x00; x80; x00] ]
  = map Some [ (3, 0); (3, 0); (3, 0); (3, 0); (3, 0); (3, 0); (3, 0);
               (0, 1); (0, 1); (0, 2); (0, 2); (0, 3); (0, 1);
               (0, 2); (0, 1) ].
Proof. vm_compute. reflexivity. Qed.

Example test_4byte_sequences :
  map test_case
    [ [xf0; x9f; x98; x82; x00]; [xf0; x9d; x84; x9e; x00];
      [xf1; x80; x80; x80; x00]; [xf2; x80; x80; x80; x00];
      [xf3; x80; x80; x80; x00];
      [xf4; x80; x80; x80; x00]; [xf4; x8f; xbf; xbf; x00];
      [xf0; x70; x98; x82; x00]; [xf0; x9f; x98; x00];
      [xf0; x9f; x00; x82; x00]; [xf0; x9f; x98; x00; x00];
      [xf1; x00; x80; x80; x00]; [xf2; x80; x00; x80; x00];
      [xf3; x80; x80; x00; x00];
      [xf4; x90; x80; x80; x00]; [xf4; x80; x00; x80; x00];
      [xf4; x80; x80; x00; x00];
      [xf5; x00]; [xf8; x00] ]
  = map Some [ (4, 0); (4, 0); (4, 0); (4, 0); (4, 0); (4, 0); (4, 0);
               (0, 1); (0, 3); (0, 2); (0, 3);
               (0, 1); (0, 2); (0, 3);
               (0, 4); (0, 2); (0, 3);
               (0, 1); (0, 1) ].
Proof. vm_compute. reflexivity. Qed.

Example test_special_cases :
  map test_case
    [ [xc1; x81; x00]; [xe0; x80; xaf; x00];
      [xed; xa0; x80; x00]; [xed; xbf; xbf; x00] ]
  = map Some [ (0, 2); (0, 3); (0, 3); (0, 3) ].
Proof. vm_compute. reflexivity. Qed.

(** ** Bytes *)

Lemma val_bound (b : byte) : 0 <= val b <= 255.
Proof.
  assert (H : (0 <=? val b) && (val b <=? 255) = true)
    by (destruct b; reflexivity).
  apply andb_true_iff in H. lia.
Qed.

Lemma val_x00 (b : byte) : val b = 0 -> b = x00.
Proof. destruct b; try reflexivity; vm_compute; discriminate. Qed.

Lemma is_utf8tail_cont (b : byte) : is_utf8tail b = is_cont b.
Proof. destruct b; reflexivity. Qed.

Lemma is_cont_range (b : byte) :
  is_cont b = true <-> 0x80 <= val b <= 0xBF.
Proof. unfold is_cont, in_range. rewrite andb_true_iff. lia. Qed.

Lemma in_range_iff lo hi x : in_range lo hi x = true <-> lo <= x <= hi.
Proof. unfold in_range. rewrite andb_true_iff. lia. Qed.

Lemma in_range_false lo hi x :
  in_range lo hi x = false <-> x < lo \/ hi < x.
Proof. unfold in_range. rewrite andb_false_iff. lia. Qed.

Lemma is_utf8firstb_ranges (b : byte) :
  is_utf8firstb b =
    (val b <=? 0x7F) || in_range 0xC2 0xDF (val b)
    || in_range 0xE0 0xEF (val b) || in_range 0xF0 0xF4 (val b).
Proof. reflexivity. Qed.

Lemma cont_not_firstb (b : byte) :
  is_cont b = true -> val b <> 0 /\ is_utf8firstb b = false.
Proof.
  rewrite is_cont_range, is_utf8firstb_ranges. intros H.
  split; [lia|].
  repeat rewrite orb_false_iff. rewrite !in_range_false. lia.
Qed.

(** ** Indexing and the first NUL *)

Lemma byte_at_head b tl : byte_at (b :: tl) 0 = Some b.
Proof. reflexivity. Qed.

Lemma byte_at_tail b tl i : 0 < i -> byte_at (b :: tl) i = byte_at tl (i - 1).
Proof.
  intros Hi. unfold byte_at.
  destruct (Z.ltb_spec i 0); [lia|].
  destruct (Z.ltb_spec (i - 1) 0); [lia|].
  replace (Z.to_nat i) with (S (Z.to_nat (i - 1))) by lia.
  reflexivity.
Qed.

Lemma strlen_nonneg s : 0 <= strlen s.
Proof.
  induction s as [|b tl IH]; cbn [strlen]; [lia|].
  destruct (val b =? 0); lia.
Qed.

(** Below the first NUL every byte is present and not NUL. *)
Lemma byte_at_below_strlen s i :
  0 <= i < strlen s -> exists b, byte_at s i = Some b /\ val b <> 0.
Proof.
  revert i. induction s as [|b tl IH]; cbn [strlen]; intros i Hi; [lia|].
  destruct (Z.eqb_spec (val b) 0) as [E|E]; [lia|].
  destruct (Z.eq_dec i 0) as [->|Hne].
  - exists b. split; [reflexivity|assumption].
  - rewrite byte_at_tail by lia. apply IH. lia.
Qed.

(** At the first NUL there is a NUL, if there is a byte at all. *)
Lemma byte_at_strlen s b : byte_at s (strlen s) = Some b -> val b = 0.
Proof.
  induction s as [|c tl IH]; cbn [strlen].
  - discriminate.
  - destruct (Z.eqb_spec (val c) 0) as [E|E].
    + rewrite byte_at_head. intros [= <-]. assumption.
    + pose proof (strlen_nonneg tl).
      rewrite byte_at_tail by lia.
      replace (1 + strlen tl - 1) with (strlen tl) by lia.
      exact IH.
Qed.

Lemma byte_at_strlen_nul s :
  nul_terminated s -> byte_at s (strlen s) = Some x00.
Proof.
  unfold nul_terminated.
  induction s as [|c tl IH]; cbn [strlen In]; [tauto|].
  intros [->|Hin].
  - reflexivity.
  - destruct (Z.eqb_spec (val c) 0) as [E|E].
    + rewrite (val_x00 _ E). reflexivity.
    + pose proof (strlen_nonneg tl).
      rewrite byte_at_tail by lia.
      replace (1 + strlen tl - 1) with (strlen tl) by lia.
      auto.
Qed.

(** In a NUL-terminated array every index up to the first NUL holds a
    byte. *)
Lemma byte_at_upto_strlen s i :
  nul_terminated s -> 0 <= i <= strlen s -> exists b, byte_at s i = Some b.
Proof.
  intros Hs Hi.
  destruct (Z.eq_dec i (strlen s)) as [->|Hne].
  - exists x00. apply byte_at_strlen_nul, Hs.
  - assert (Hlt : 0 <= i < strlen s) by lia.
    destruct (byte_at_below_strlen s i Hlt) as (b & Hb & _). eauto.
Qed.

(** Past a byte that is not NUL the next index still is no further than
    the first NUL. *)
Lemma strlen_step s i b :
  0 <= i <= strlen s -> byte_at s i = Some b -> val b <> 0 ->
  i + 1 <= strlen s.
Proof.
  intros Hi Hb Hnz.
  destruct (Z.eq_dec i (strlen s)) as [->|Hne]; [|lia].
  apply byte_at_strlen in Hb. contradiction.
Qed.

Lemma strlen_lt_length s :
  nul_terminated s -> strlen s < Z.of_nat (length s).
Proof.
  unfold nul_terminated.
  induction s as [|c tl IH]; cbn [strlen In length]; [tauto|].
  intros [->|Hin].
  - change (val x00 =? 0) with true. lia.
  - destruct (val c =? 0); [lia|]. specialize (IH Hin). lia.
Qed.

Lemma get_byte_at s i b : byte_at s i = Some b -> get s i = b.
Proof. unfold get. intros ->. reflexivity. Qed.

(** ** Loads and conditions *)

Lemma safe_reads_refl s st : safe_reads s st st [].
Proof. destruct st. split; [reflexivity|constructor]. Qed.

Lemma safe_reads_trans s st1 st2 st3 evs1 evs2 :
  safe_reads s st1 st2 evs1 -> safe_reads s st2 st3 evs2 ->
  safe_reads s st1 st3 (evs2 ++ evs1).
Proof.
  intros [-> H1] [-> H2]. split.
  - simpl. rewrite app_assoc. reflexivity.
  - apply Forall_app. split; assumption.
Qed.

Lemma load_safe s i st :
  nul_terminated s -> 0 <= i <= strlen s ->
  exists b, byte_at s i = Some b /\
            load s i st = Ok b (log (EvRead i) st) /\
            safe_reads s st (log (EvRead i) st) [EvRead i].
Proof.
  intros Hs Hi.
  destruct (byte_at_upto_strlen s i Hs Hi) as (b & Hb).
  exists b. split; [assumption|]. split.
  - unfold load. rewrite Hb. reflexivity.
  - split; [reflexivity|].
    constructor; [|constructor]. exists i. split; [reflexivity|lia].
Qed.

Lemma checks_at s i (f : byte -> bool) :
  nul_terminated s -> 0 <= i <= strlen s ->
  checks s (c <- load s i ;; ret (f c)) (f (get s i)).
Proof.
  intros Hs Hi st.
  destruct (load_safe s i st Hs Hi) as (b & Hb & Hl & Hsafe).
  exists (log (EvRead i) st), [EvRead i]. split; [|assumption].
  unfold bind. rewrite Hl. rewrite (get_byte_at _ _ _ Hb). reflexivity.
Qed.

Lemma checks_and s a b p q :
  checks s a p -> (p = true -> checks s b q) ->
  checks s (a &&& b) (p && q).
Proof.
  intros Ha Hb st.
  destruct (Ha st) as (st1 & evs1 & Ea & S1).
  unfold andM, bind. rewrite Ea.
  destruct p; simpl.
  - destruct (Hb eq_refl st1) as (st2 & evs2 & Eb & S2).
    exists st2, (evs2 ++ evs1). split; [assumption|].
    eapply safe_reads_trans; eassumption.
  - exists st1, evs1. split; [reflexivity|assumption].
Qed.

(** A byte at a safe index that is not NUL makes the next index safe. *)
Lemma get_step s i :
  0 <= i <= strlen s -> val (get s i) <> 0 -> 0 <= i + 1 <= strlen s.
Proof.
  intros Hi Hnz. split; [lia|].
  unfold get in Hnz.
  destruct (byte_at s i) as [b|] eqn:Hb.
  - eapply strlen_step; eassumption.
  - exfalso. apply Hnz. reflexivity.
Qed.

(** ** The loop of count_illegal_sequences *)

Lemma run_continues_true c len max :
  run_continues c len max = true ->
  val c <> 0 /\ len < max /\ is_utf8firstb c = false.
Proof.
  unfold run_continues. rewrite !andb_true_iff, !negb_true_iff.
  intros [[H1 H2] H3]. repeat split; [|lia|assumption].
  destruct (Z.eqb_spec (val c) 0); [discriminate|assumption].
Qed.

Lemma run_continues_false c len max :
  run_continues c len max = false ->
  val c = 0 \/ max <= len \/ is_utf8firstb c = true.
Proof.
  unfold run_continues. rewrite !andb_false_iff, !negb_false_iff.
  intros [[H|H]|H]; [left|right; left|right; right]; [|lia|assumption].
  destruct (Z.eqb_spec (val c) 0); [assumption|discriminate].
Qed.

(** Started at [len] with [c = s[len]], no further than the first NUL
    and with only illegal bytes behind it, the loop ends within its fuel
    at the length of the illegal run. *)
Lemma count_loop_spec s max :
  nul_terminated s ->
  forall fuel len c st,
    1 <= len <= strlen s -> len <= max ->
    byte_at s len = Some c ->
    strlen s - len < Z.of_nat fuel ->
    (forall i, 1 <= i < len -> illegal_byte s i) ->
    exists k st' evs,
      count_loop fuel s max len c st = Ok k st' /\
      safe_reads s st st' evs /\
      illegal_run s max k.
Proof.
  intros Hs fuel.
  induction fuel as [|fuel IH]; intros len c st Hlen Hmax Hc Hfuel Hbefore.
  - lia.
  - cbn [count_loop].
    destruct (run_continues c len max) eqn:Hrun.
    + apply run_continues_true in Hrun. destruct Hrun as (Hnz & Hlt & Hnf).
      assert (Hnext : len + 1 <= strlen s)
        by (eapply strlen_step; [lia|eassumption|assumption]).
      assert (Hin : 0 <= len + 1 <= strlen s) by lia.
      destruct (load_safe s (len + 1) st Hs Hin)
        as (c' & Hc' & Hload & Hsafe).
      assert (Hbefore' : forall i, 1 <= i < len + 1 -> illegal_byte s i).
      { intros i Hi.
        destruct (Z.eq_dec i len) as [->|Hne].
        - exists c. auto.
        - apply Hbefore. lia. }
      destruct (IH (len + 1) c' (log (EvRead (len + 1)) st))
        as (k & st' & evs & Hk & Hsafe' & Hrun'); try lia; try assumption.
      exists k, st', (evs ++ [EvRead (len + 1)]).
      split; [|split; [|assumption]].
      * unfold bind. rewrite Hload. exact Hk.
      * eapply safe_reads_trans; eassumption.
    + exists len, st, []. split; [reflexivity|].
      split; [apply safe_reads_refl|].
      split; [lia|]. split; [assumption|].
      apply run_continues_false in Hrun.
      destruct Hrun as [H|[H|H]].
      * right. exists c. auto.
      * left. lia.
      * right. exists c. auto.
Qed.

Lemma count_illegal_sequences_spec s max st :
  nul_terminated s -> 1 <= strlen s -> 1 <= max ->
  exists k st1 evs,
    count_illegal_sequences s max st
      = Ok tt (mkState k (errno st1) (EvStoreIlllen k :: trace st1)) /\
    safe_reads s st st1 evs /\
    illegal_run s max k.
Proof.
  intros Hs Hlen Hmax.
  destruct (load_safe s 1 st Hs) as (c & Hc & Hload & Hsafe); [lia|].
  assert (Hfuel : strlen s - 1 < Z.of_nat (length s))
    by (pose proof (strlen_lt_length s Hs); lia).
  assert (Hnone : forall i, 1 <= i < 1 -> illegal_byte s i)
    by (intros i Hi; lia).
  assert (Hone : 1 <= 1 <= strlen s) by lia.
  destruct (count_loop_spec s max Hs (length s) 1 c (log (EvRead 1) st)
              Hone Hmax Hc Hfuel Hnone)
    as (k & st1 & evs & Hk & Hsafe1 & Hrun).
  exists k, st1, (evs ++ [EvRead 1]).
  split; [|split; [|assumption]].
  - unfold count_illegal_sequences, bind. rewrite Hload, Hk. reflexivity.
  - eapply safe_reads_trans; eassumption.
Qed.

(** One branch of utf8clen: [if (cond) return n;
    count_illegal_sequences(max); return 0;]. *)
Lemma branch_spec s cond p n max st0 st evs0 :
  nul_terminated s -> 1 <= strlen s -> 1 <= max ->
  checks s cond p ->
  safe_reads s st0 st evs0 ->
  exists r st',
    (ok <- cond ;;
     if ok then ret n else count_illegal_sequences s max ;;; ret 0) st
      = Ok r st' /\
    post s max st0 (if p then Some n else None) r st'.
Proof.
  intros Hs Hlen Hmax Hcond Hsafe0.
  destruct (Hcond st) as (st1 & evs1 & Hc & Hsafe1).
  unfold bind at 1. rewrite Hc.
  destruct p.
  - exists n, st1. split; [reflexivity|].
    split; [reflexivity|].
    exists (evs1 ++ evs0). eapply safe_reads_trans; eassumption.
  - destruct (count_illegal_sequences_spec s max st1 Hs Hlen Hmax)
      as (k & st2 & evs2 & Hk & Hsafe2 & Hrun).
    eexists 0, _. split.
    + unfold bind. rewrite Hk. reflexivity.
    + split; [reflexivity|].
      exists k, st2, (evs2 ++ evs1 ++ evs0).
      split; [|split; [reflexivity|assumption]].
      eapply safe_reads_trans; [|eassumption].
      eapply safe_reads_trans; eassumption.
Qed.

(** ** The conditions of the branches *)

Section Conditions.
Variable s : cstr.
Hypothesis Hs : nul_terminated s.
Hypothesis Hlead : 1 <= strlen s.

Lemma safe_after_cont i :
  0 <= i <= strlen s -> is_utf8tail (get s i) = true ->
  0 <= i + 1 <= strlen s.
Proof.
  intros Hi Ht. apply get_step; [assumption|].
  rewrite is_utf8tail_cont in Ht. apply cont_not_firstb in Ht. tauto.
Qed.

Lemma safe_after_range i lo hi :
  0 <= i <= strlen s -> 0 < lo ->
  (lo <=? val (get s i)) && (val (get s i) <=? hi) = true ->
  0 <= i + 1 <= strlen s.
Proof.
  intros Hi Hlo Hr. apply get_step; [assumption|].
  apply andb_true_iff in Hr. lia.
Qed.

Lemma checks_tail i :
  0 <= i <= strlen s -> checks s (tail_at s i) (is_utf8tail (get s i)).
Proof. intros Hi. apply (checks_at s i is_utf8tail Hs Hi). Qed.

Lemma checks_ge i lo :
  0 <= i <= strlen s -> checks s (ge_at s i lo) (lo <=? val (get s i)).
Proof.
  intros Hi. apply (checks_at s i (fun c => lo <=? val c) Hs Hi).
Qed.

Lemma checks_le i hi :
  0 <= i <= strlen s -> checks s (le_at s i hi) (val (get s i) <=? hi).
Proof.
  intros Hi. apply (checks_at s i (fun c => val c <=? hi) Hs Hi).
Qed.

(** [is_utf8tail(s[1]) && is_utf8tail(s[2])] *)
Lemma checks_tails2 :
  checks s (tail_at s 1 &&& tail_at s 2)
    (is_cont (get s 1) && is_cont (get s 2)).
Proof.
  rewrite <- !is_utf8tail_cont.
  apply checks_and; [apply checks_tail; lia|].
  intros H1. apply checks_tail.
  apply (safe_after_cont 1); [lia|assumption].
Qed.

(** [is_utf8tail(s[1]) && is_utf8tail(s[2]) && is_utf8tail(s[3])] *)
Lemma checks_tails3 :
  checks s (tail_at s 1 &&& tail_at s 2 &&& tail_at s 3)
    (is_cont (get s 1) && is_cont (get s 2) && is_cont (get s 3)).
Proof.
  rewrite <- !is_utf8tail_cont.
  apply checks_and.
  - apply checks_and; [apply checks_tail; lia|].
    intros H1. apply checks_tail.
    apply (safe_after_cont 1); [lia|assumption].
  - intros H12. apply andb_true_iff in H12. destruct H12 as [H1 H2].
    apply checks_tail.
    apply (safe_after_cont 2); [|assumption].
    apply (safe_after_cont 1); [lia|assumption].
Qed.

(** [s[1] >= lo && s[1] <= hi && is_utf8tail(s[2])] *)
Lemma checks_range_tail lo hi :
  0 < lo ->
  checks s (ge_at s 1 lo &&& le_at s 1 hi &&& tail_at s 2)
    (in_range lo hi (val (get s 1)) && is_cont (get s 2)).
Proof.
  intros Hlo. rewrite <- !is_utf8tail_cont. unfold in_range.
  apply checks_and.
  - apply checks_and; [apply checks_ge; lia|].
    intros _. apply checks_le. lia.
  - intros Hr. apply checks_tail.
    apply (safe_after_range 1 lo hi); [lia|assumption|assumption].
Qed.

(** [s[1] >= lo && s[1] <= hi && is_utf8tail(s[2]) &&
    is_utf8tail(s[3])] *)
Lemma checks_range_tails2 lo hi :
  0 < lo ->
  checks s (ge_at s 1 lo &&& le_at s 1 hi &&& tail_at s 2 &&& tail_at s 3)
    (in_range lo hi (val (get s 1)) && is_cont (get s 2)
     && is_cont (get s 3)).
Proof.
  intros Hlo.
  apply checks_and; [apply checks_range_tail; assumption|].
  intros H. apply andb_true_iff in H. destruct H as [Hr H2].
  rewrite <- is_utf8tail_cont. apply checks_tail.
  rewrite <- is_utf8tail_cont in H2.
  apply (safe_after_cont 2); [|assumption].
  apply (safe_after_range 1 lo hi); [lia|assumption|assumption].
Qed.
End Conditions.

(** ** utf8clen follows Table 3-7 and counts the illegal run *)

Lemma SIZE_MAX_pos : 1 <= SIZE_MAX.
Proof. unfold SIZE_MAX. lia. Qed.

(** On a NUL-terminated string the body returns: with the length that
    Table 3-7 gives and nothing but loads up to the first NUL, or with 0
    after it has stored the length of the illegal run under the cap of the
    lead byte. *)
Lemma utf8clen_body_spec s st :
  nul_terminated s ->
  exists r st',
    utf8clen_body s st = Ok r st' /\
    post s (illegal_cap (get s 0)) st (well_formed_len s) r st'.
Proof.
  intros Hs.
  assert (H0 : 0 <= 0 <= strlen s) by (pose proof (strlen_nonneg s); lia).
  destruct (load_safe s 0 st Hs H0) as (c & Hc & Hload & Hsafe).
  unfold utf8clen_body. unfold bind at 1. rewrite Hload.
  unfold well_formed_len, illegal_cap. cbv zeta.
  rewrite (get_byte_at _ _ _ Hc).
  destruct (Z.leb_spec (val c) 0x7F) as [Hascii|Hhigh].
  { exists 1, (log (EvRead 0) st). split; [reflexivity|].
    split; [reflexivity|]. eauto. }
  assert (Hlead : 1 <= strlen s).
  { apply (strlen_step s 0 c); [assumption|assumption|lia]. }
  pose proof SIZE_MAX_pos as Hmax.
  pose proof (val_bound c) as Hb.
  change ((0xC2 <=? val c) && (val c <=? 0xDF))
    with (in_range 0xC2 0xDF (val c)).
  change ((0xE1 <=? val c) && (val c <=? 0xEC))
    with (in_range 0xE1 0xEC (val c)).
  change ((0xEE <=? val c) && (val c <=? 0xEF))
    with (in_range 0xEE 0xEF (val c)).
  change ((0xF1 <=? val c) && (val c <=? 0xF3))
    with (in_range 0xF1 0xF3 (val c)).
  destruct (in_range 0xC2 0xDF (val c)) eqn:E2.
  { eapply branch_spec; try eassumption; try lia.
    rewrite <- is_utf8tail_cont. apply checks_tail; [assumption|lia]. }
  apply in_range_false in E2.
  destruct (Z.eqb_spec (val c) 0xE0) as [E3|E3].
  { replace (in_range 0xE0 0xEF (val c)) with true by (rewrite E3; reflexivity).
    eapply branch_spec; try eassumption; try lia.
    apply checks_range_tail; [assumption|assumption|lia]. }
  destruct (in_range 0xE1 0xEC (val c) || in_range 0xEE 0xEF (val c)) eqn:E4.
  { replace (in_range 0xE0 0xEF (val c)) with true.
    - eapply branch_spec; try eassumption; try lia.
      apply checks_tails2; assumption.
    - symmetry. apply in_range_iff.
      apply orb_true_iff in E4. rewrite !in_range_iff in E4. lia. }
  apply orb_false_iff in E4. rewrite !in_range_false in E4.
  destruct (Z.eqb_spec (val c) 0xED) as [E5|E5].
  { replace (in_range 0xE0 0xEF (val c)) with true by (rewrite E5; reflexivity).
    eapply branch_spec; try eassumption; try lia.
    apply checks_range_tail; [assumption|assumption|lia]. }
  replace (in_range 0xE0 0xEF (val c)) with false
    by (symmetry; apply in_range_false; lia).
  destruct (Z.eqb_spec (val c) 0xF0) as [E6|E6].
  { replace (in_range 0xF0 0xF4 (val c)) with true by (rewrite E6; reflexivity).
    eapply branch_spec; try eassumption; try lia.
    apply checks_range_tails2; [assumption|assumption|lia]. }
  destruct (in_range 0xF1 0xF3 (val c)) eqn:E7.
  { replace (in_range 0xF0 0xF4 (val c)) with true.
    - eapply branch_spec; try eassumption; try lia.
      apply checks_tails3; assumption.
    - symmetry. apply in_range_iff. apply in_range_iff in E7. lia. }
  apply in_range_false in E7.
  destruct (Z.eqb_spec (val c) 0xF4) as [E8|E8].
  { replace (in_range 0xF0 0xF4 (val c)) with true by (rewrite E8; reflexivity).
    eapply branch_spec; try eassumption; try lia.
    apply checks_range_tails2; [assumption|assumption|lia]. }
  replace (in_range 0xF0 0xF4 (val c)) with false
    by (symmetry; apply in_range_false; lia).
  destruct (count_illegal_sequences_spec s SIZE_MAX (log (EvRead 0) st)
              Hs Hlead Hmax) as (k & st1 & evs & Hk & Hsafe1 & Hrun).
  eexists 0, _. split.
  - unfold bind. rewrite Hk. reflexivity.
  - split; [reflexivity|].
    exists k, st1, (evs ++ [EvRead 0]).
    split; [|split; [reflexivity|assumption]].
    eapply safe_reads_trans; eassumption.
Qed.

(** ** Consequences for whole calls *)

Lemma is_utf8firstb_first_byte b : is_utf8firstb b = true <-> first_byte b.
Proof.
  rewrite is_utf8firstb_ranges, !orb_true_iff, !in_range_iff.
  unfold first_byte. rewrite Z.leb_le. tauto.
Qed.

Lemma not_first_byte b : is_utf8firstb b = false <-> ~ first_byte b.
Proof.
  rewrite <- is_utf8firstb_first_byte.
  destruct (is_utf8firstb b); split; intros H; congruence.
Qed.

Lemma well_formed_len_range s n : well_formed_len s = Some n -> 1 <= n <= 4.
Proof.
  unfold well_formed_len. cbv zeta.
  repeat match goal with
         | |- context [if ?b then _ else _] => destruct b
         end;
  intros [= <-]; lia.
Qed.

Lemma stores_reads s st st' evs : safe_reads s st st' evs -> stores evs = [].
Proof.
  intros [_ H]. induction H as [|e evs (i & -> & _) _ IH]; [reflexivity|].
  exact IH.
Qed.

Lemma safe_reads_In s st st' evs i :
  safe_reads s st st' evs -> In (EvRead i) evs -> 0 <= i <= strlen s.
Proof.
  intros [_ H] Hin. rewrite Forall_forall in H.
  destruct (H _ Hin) as (j & [= ->] & Hj). exact Hj.
Qed.

Lemma safe_reads_is_read s st st' evs :
  safe_reads s st st' evs -> Forall is_read evs.
Proof.
  intros [_ H]. eapply Forall_impl; [|exact H].
  intros e (i & -> & _). exists i. reflexivity.
Qed.

Lemma classify_valid r st : 1 <= r <= 4 -> classify r st = Valid r.
Proof.
  intros Hr. unfold classify, SIZE_MAX.
  destruct (Z.eqb_spec r 0); [lia|].
  destruct (Z.eqb_spec r 18446744073709551615); [lia|reflexivity].
Qed.

(** The view of [utf8clen_body_spec] for a call with both pointers set. *)
Lemma utf8clen_spec s st :
  nul_terminated s ->
  exists r st',
    utf8clen (Ref s) (Ref IllLen) st = Ok r st' /\
    post s (illegal_cap (get s 0)) st (well_formed_len s) r st'.
Proof. apply utf8clen_body_spec. Qed.

(** A string that Table 3-7 accepts with length [n] is Valid(n), and the
    call only loads. *)
Lemma utf8clen_well_formed s st n :
  nul_terminated s -> well_formed_len s = Some n ->
  exists st' evs,
    utf8clen (Ref s) (Ref IllLen) st = Ok n st' /\
    safe_reads s st st' evs.
Proof.
  intros Hs Hw.
  destruct (utf8clen_spec s st Hs) as (r & st' & Hcall & Hpost).
  rewrite Hw in Hpost. destruct Hpost as (-> & evs & Hsafe).
  exists st', evs. split; assumption.
Qed.

(** A string that Table 3-7 rejects is Invalid(k), with [k] the length of
    the illegal run under the cap of the lead byte. *)
Lemma utf8clen_ill_formed s st :
  nul_terminated s -> well_formed_len s = None ->
  exists k st1 evs,
    utf8clen (Ref s) (Ref IllLen) st
      = Ok 0 (mkState k (errno st1) (EvStoreIlllen k :: trace st1)) /\
    safe_reads s st st1 evs /\
    illegal_run s (illegal_cap (get s 0)) k.
Proof.
  intros Hs Hw.
  destruct (utf8clen_spec s st Hs) as (r & st' & Hcall & Hpost).
  rewrite Hw in Hpost.
  destruct Hpost as (-> & k & st1 & evs & Hsafe & -> & Hrun).
  exists k, st1, evs. split; [assumption|]. split; assumption.
Qed.

(** The run is exactly [k] long once the bytes 1 .. k-1 are illegal and
    [k] is the cap or the byte at [k] ends the run. *)
Lemma illegal_run_unique s max k k' :
  illegal_run s max k -> illegal_run s max k' -> k = k'.
Proof.
  assert (Hlt : forall a b,
             illegal_run s max a -> illegal_run s max b -> a < b -> False).
  { intros a b (Ha & _ & Hstop) (Hb & Hbytes & _) Hab.
    destruct Hstop as [->|(c & Hc & Hend)]; [lia|].
    destruct (Hbytes a) as (c' & Hc' & Hnz & Hnf); [lia|].
    rewrite Hc in Hc'. injection Hc' as <-.
    destruct Hend as [H|H]; [contradiction|congruence]. }
  intros H1 H2.
  destruct (Z.lt_trichotomy k k') as [H|[H|H]]; [|assumption|].
  - exfalso. eapply (Hlt k k'); eassumption.
  - exfalso. eapply (Hlt k' k); eassumption.
Qed.

Lemma yields_valid s st n :
  nul_terminated s -> well_formed_len s = Some n -> yields s st (Valid n).
Proof.
  intros Hs Hw.
  destruct (utf8clen_well_formed s st n Hs Hw) as (st' & evs & Hcall & _).
  exists n, st'. split; [assumption|].
  apply classify_valid. eapply well_formed_len_range. eassumption.
Qed.

Lemma yields_invalid s st k :
  nul_terminated s -> well_formed_len s = None ->
  illegal_run s (illegal_cap (get s 0)) k ->
  yields s st (Invalid k).
Proof.
  intros Hs Hw Hrun.
  destruct (utf8clen_ill_formed s st Hs Hw)
    as (k' & st1 & evs & Hcall & _ & Hrun').
  rewrite (illegal_run_unique _ _ _ _ Hrun Hrun').
  eexists 0, _. split; [exact Hcall|reflexivity].
Qed.

Lemma yields_some_invalid s st :
  nul_terminated s -> well_formed_len s = None ->
  exists k, 1 <= k /\ yields s st (Invalid k).
Proof.
  intros Hs Hw.
  destruct (utf8clen_ill_formed s st Hs Hw)
    as (k & st1 & evs & Hcall & _ & Hrun).
  exists k. split; [apply Hrun|].
  eexists 0, _. split; [exact Hcall|reflexivity].
Qed.

Lemma get_0 b s : get (b :: s) 0 = b.
Proof. reflexivity. Qed.
Lemma get_1 b0 b s : get (b0 :: b :: s) 1 = b.
Proof. reflexivity. Qed.
Lemma get_2 b0 b1 b s : get (b0 :: b1 :: b :: s) 2 = b.
Proof. reflexivity. Qed.
Lemma get_3 b0 b1 b2 b s : get (b0 :: b1 :: b2 :: b :: s) 3 = b.
Proof. reflexivity. Qed.

(** Unfolds Table 3-7 on a string whose first bytes are given. *)
Ltac table :=
  unfold well_formed_len; cbv zeta;
  rewrite ?get_0, ?get_1, ?get_2, ?get_3;
  unfold is_cont, in_range.

(** ** The properties of the specification *)

(** C8. ASCII identity: for a byte [b <= 0x7F] at the cursor, NUL
    included, utf8clen returns 1, Valid(1), after loading that byte and
    nothing else; neither [*illlen] nor [errno] changes. *)
Theorem ascii_identity (b : byte) (rest : cstr) (st : state) :
  val b <= 0x7F ->
  utf8clen (Ref (b :: rest)) (Ref IllLen) st = Ok 1 (log (EvRead 0) st) /\
  classify 1 (log (EvRead 0) st) = Valid 1.
Proof.
  intros Hb. split; [|reflexivity].
  unfold utf8clen, utf8clen_body, bind, load.
  rewrite byte_at_head.
  destruct (Z.leb_spec (val b) 0x7F); [reflexivity|lia].
Qed.

Lemma ascii_identity_nul :
  val x00 <= 0x7F /\
  utf8clen (Ref [x00; x00]) (Ref IllLen) (mkState 7 0 [])
    = Ok 1 (mkState 7 0 [EvRead 0]) /\
  classify 1 (mkState 7 0 [EvRead 0]) = Valid 1.
Proof.
  assert (H : val x00 <= 0x7F) by (vm_compute; discriminate).
  split; [exact H|].
  exact (ascii_identity x00 [x00] (mkState 7 0 []) H).
Defined.

(** C9. Parameter misuse: when [s] or [illlen] is null, utf8clen returns
    SIZE_MAX at once; the only effect is [errno = EINVAL], nothing is
    loaded and [*illlen] is not written. *)
Theorem parameter_error (s : pointer cstr) (illlen : pointer out_object)
  (st : state) :
  s = NULL \/ illlen = NULL ->
  utf8clen s illlen st
    = Ok SIZE_MAX
        (mkState (illlen_obj st) EINVAL (EvSetErrno EINVAL :: trace st)) /\
  classify SIZE_MAX
    (mkState (illlen_obj st) EINVAL (EvSetErrno EINVAL :: trace st))
    = ParameterError.
Proof.
  intros [-> | ->]; (split; [|reflexivity]).
  - reflexivity.
  - destruct s; reflexivity.
Qed.

Lemma parameter_error_null_output :
  (Ref [x74; x65; x73; x74; x00] = NULL \/ @NULL out_object = NULL) /\
  utf8clen (Ref [x74; x65; x73; x74; x00]) NULL (mkState 5 0 [])
    = Ok SIZE_MAX (mkState 5 EINVAL [EvSetErrno EINVAL]).
Proof.
  split; [right; reflexivity|].
  exact (proj1 (parameter_error (Ref [x74; x65; x73; x74; x00]) NULL
                  (mkState 5 0 []) (or_intror eq_refl))).
Defined.

(** C7. Truncation: a lead byte of a 2-, 3- or 4-byte sequence (C2-DF,
    E0-EF, F0-F4) directly followed by the NUL terminator is Invalid with
    an illegal run of exactly 1. *)
Theorem truncation_handling (b : byte) (rest : cstr) (st : state) :
  0xC2 <= val b <= 0xDF \/ 0xE0 <= val b <= 0xEF \/ 0xF0 <= val b <= 0xF4 ->
  yields (b :: x00 :: rest) st (Invalid 1).
Proof.
  intros Hb.
  assert (Hs : nul_terminated (b :: x00 :: rest))
    by (right; left; reflexivity).
  apply yields_invalid; [assumption| |].
  - table. change (val x00) with 0. decide_cmp.
  - rewrite get_0. split; [|split].
    + unfold illegal_cap, in_range, SIZE_MAX. decide_cmp; lia.
    + intros i Hi. lia.
    + right. exists x00. split; [reflexivity|]. left. reflexivity.
Qed.

Lemma truncation_handling_c3 :
  (0xC2 <= val xc3 <= 0xDF \/ 0xE0 <= val xc3 <= 0xEF \/
   0xF0 <= val xc3 <= 0xF4) /\
  yields [xc3; x00] (mkState 0 0 []) (Invalid 1).
Proof.
  assert (H : 0xC2 <= val xc3 <= 0xDF \/ 0xE0 <= val xc3 <= 0xEF \/
              0xF0 <= val xc3 <= 0xF4)
    by (left; change (val xc3) with 0xC3; lia).
  split; [exact H|].
  exact (truncation_handling xc3 [] (mkState 0 0 []) H).
Defined.

(** C5. Surrogate rejection: every sequence ED A0 80 .. ED BF BF (the
    would-be encodings of U+D800..U+DFFF) in a NUL-terminated string is
    Invalid, and the illegal run is then the whole sequence, 3 bytes; for
    the string ED A0 80 in particular the result is Invalid(3). *)
Theorem surrogate_rejection (b1 b2 : byte) (rest : cstr) (st : state) :
  0xA0 <= val b1 <= 0xBF -> 0x80 <= val b2 <= 0xBF ->
  nul_terminated rest ->
  yields (xed :: b1 :: b2 :: rest) st (Invalid 3).
Proof.
  intros H1 H2 Hrest.
  assert (Hs : nul_terminated (xed :: b1 :: b2 :: rest))
    by (right; right; right; exact Hrest).
  assert (Hill : forall b, 0x80 <= val b <= 0xBF ->
                           val b <> 0 /\ is_utf8firstb b = false)
    by (intros b Hb; apply cont_not_firstb, is_cont_range, Hb).
  apply yields_invalid; [assumption| |].
  - table. change (val xed) with 0xED. decide_cmp.
  - rewrite get_0. change (illegal_cap xed) with 3.
    split; [lia|]. split; [|left; reflexivity].
    intros i Hi.
    assert (Hcases : i = 1 \/ i = 2) by lia.
    destruct Hcases as [-> | ->].
    + exists b1. split; [reflexivity|]. apply Hill. lia.
    + exists b2. split; [reflexivity|]. apply Hill. lia.
Qed.

Lemma surrogate_rejection_d800 :
  0xA0 <= val xa0 <= 0xBF /\ 0x80 <= val x80 <= 0xBF /\
  nul_terminated [x00] /\
  yields [xed; xa0; x80; x00] (mkState 0 0 []) (Invalid 3).
Proof.
  assert (H1 : 0xA0 <= val xa0 <= 0xBF) by (change (val xa0) with 0xA0; lia).
  assert (H2 : 0x80 <= val x80 <= 0xBF) by (change (val x80) with 0x80; lia).
  assert (H3 : nul_terminated [x00]) by (left; reflexivity).
  split; [exact H1|]. split; [exact H2|]. split; [exact H3|].
  exact (surrogate_rejection xa0 x80 [x00] (mkState 0 0 []) H1 H2 H3).
Defined.

(** C6. Overlong rejection: in a NUL-terminated string every overlong
    form is Invalid, with an illegal run of at least 1: every 2-byte
    sequence with the lead C0 or C1, whatever its second byte (so C0 80,
    C1 81 and C1 BF among them), every sequence that starts E0 80 .. E0 9F
    (so all of E0 80 80 .. E0 9F BF) and every sequence that starts
    F0 80 .. F0 8F (so all of F0 80 80 80 .. F0 8F BF BF). *)
Theorem overlong_rejection (rest : cstr) (st : state) :
  nul_terminated rest ->
  (forall b0 b1, 0xC0 <= val b0 <= 0xC1 ->
     exists k, 1 <= k /\ yields (b0 :: b1 :: rest) st (Invalid k)) /\
  (exists k, 1 <= k /\ yields (xc0 :: x80 :: rest) st (Invalid k)) /\
  (exists k, 1 <= k /\ yields (xc1 :: xbf :: rest) st (Invalid k)) /\
  (forall b1 b2, 0x80 <= val b1 <= 0x9F ->
     exists k, 1 <= k /\ yields (xe0 :: b1 :: b2 :: rest) st (Invalid k)) /\
  (forall b1 b2 b3, 0x80 <= val b1 <= 0x8F ->
     exists k,
       1 <= k /\ yields (xf0 :: b1 :: b2 :: b3 :: rest) st (Invalid k)).
Proof.
  intros Hrest. repeat split.
  - intros b0 b1 H0. apply yields_some_invalid.
    + right; right; exact Hrest.
    + table. decide_cmp.
  - apply yields_some_invalid; [right; right; exact Hrest|reflexivity].
  - apply yields_some_invalid; [right; right; exact Hrest|reflexivity].
  - intros b1 b2 H1. apply yields_some_invalid.
    + right; right; right; exact Hrest.
    + table. change (val xe0) with 0xE0. decide_cmp.
  - intros b1 b2 b3 H1. apply yields_some_invalid.
    + right; right; right; right; exact Hrest.
    + table. change (val xf0) with 0xF0. decide_cmp.
Qed.

Lemma overlong_rejection_slash :
  nul_terminated [x00] /\
  0xC0 <= val xc1 <= 0xC1 /\
  0x80 <= val x80 <= 0x9F /\
  (exists k,
     1 <= k /\ yields [xc1; x81; x00] (mkState 0 0 []) (Invalid k)) /\
  (exists k,
     1 <= k /\ yields [xe0; x80; xaf; x00] (mkState 0 0 []) (Invalid k)).
Proof.
  assert (H : nul_terminated [x00]) by (left; reflexivity).
  assert (H0 : 0xC0 <= val xc1 <= 0xC1) by (change (val xc1) with 0xC1; lia).
  assert (H1 : 0x80 <= val x80 <= 0x9F) by (change (val x80) with 0x80; lia).
  split; [exact H|]. split; [exact H0|]. split; [exact H1|].
  split.
  - exact (proj1 (overlong_rejection [x00] (mkState 0 0 []) H) xc1 x81 H0).
  - exact (proj1 (proj2 (proj2 (proj2
             (overlong_rejection [x00] (mkState 0 0 []) H))))
             x80 xaf H1).
Defined.

(** C3 as stated fails: after the lead F5 the byte 80 is neither NUL nor
    a first byte, so it joins the run; the string F5 80 is Invalid(2), not
    Invalid(1). *)
Lemma ceiling_run_not_1 :
  nul_terminated [xf5; x80; x00] /\
  0xF5 <= val xf5 <= 0xFF /\
  utf8clen (Ref [xf5; x80; x00]) (Ref IllLen) (mkState 0 0 [])
    = Ok 0 (mkState 2 0 [EvStoreIlllen 2; EvRead 2; EvRead 1; EvRead 0]) /\
  ~ yields [xf5; x80; x00] (mkState 0 0 []) (Invalid 1).
Proof.
  split; [right; right; left; reflexivity|].
  split; [change (val xf5) with 0xF5; lia|].
  split; [reflexivity|].
  intros (r & st' & Hcall & Hc).
  change (utf8clen (Ref [xf5; x80; x00]) (Ref IllLen) (mkState 0 0 []))
    with (Ok 0 (mkState 2 0
                  [EvStoreIlllen 2; EvRead 2; EvRead 1; EvRead 0]))
    in Hcall.
  injection Hcall as <- <-. discriminate Hc.
Qed.

(** C3, amended. Ceiling rejection: a lead byte F5-FF in a NUL-terminated
    string is always Invalid, with an illegal run [k >= 1]; [k] is 1
    exactly when the byte after the lead is the NUL terminator or a valid
    first byte. *)
Theorem ceiling_rejection (b : byte) (rest : cstr) (st : state) :
  0xF5 <= val b <= 0xFF ->
  nul_terminated (b :: rest) ->
  exists k,
    yields (b :: rest) st (Invalid k) /\
    1 <= k /\
    (k = 1 <->
     exists c, byte_at (b :: rest) 1 = Some c /\ (val c = 0 \/ first_byte c)).
Proof.
  intros Hb Hs.
  assert (Hw : well_formed_len (b :: rest) = None) by (table; decide_cmp).
  destruct (utf8clen_ill_formed (b :: rest) st Hs Hw)
    as (k & st1 & evs & Hcall & _ & Hrun).
  exists k. split; [|split].
  - eexists 0, _. split; [exact Hcall|reflexivity].
  - apply Hrun.
  - rewrite get_0 in Hrun.
    replace (illegal_cap b) with SIZE_MAX in Hrun
      by (unfold illegal_cap, in_range; decide_cmp).
    destruct Hrun as (Hk & Hbytes & Hstop). split.
    + intros ->. destruct Hstop as [H|(c & Hc & Hend)].
      * unfold SIZE_MAX in H. lia.
      * exists c. split; [assumption|].
        destruct Hend as [H|H]; [left; assumption|].
        right. apply is_utf8firstb_first_byte. assumption.
    + intros (c & Hc & Hend).
      destruct (Z.eq_dec k 1) as [|Hne]; [assumption|].
      destruct (Hbytes 1) as (c' & Hc' & Hnz & Hnf); [lia|].
      rewrite Hc in Hc'. injection Hc' as <-.
      destruct Hend as [H|H]; [contradiction|].
      apply is_utf8firstb_first_byte in H. congruence.
Qed.

Lemma ceiling_rejection_f5 :
  0xF5 <= val xf5 <= 0xFF /\
  nul_terminated [xf5; x00] /\
  exists k,
    yields [xf5; x00] (mkState 0 0 []) (Invalid k) /\
    1 <= k /\
    (k = 1 <->
     exists c, byte_at [xf5; x00] 1 = Some c /\ (val c = 0 \/ first_byte c)).
Proof.
  assert (H1 : 0xF5 <= val xf5 <= 0xFF) by (change (val xf5) with 0xF5; lia).
  assert (H2 : nul_terminated [xf5; x00]) by (right; left; reflexivity).
  split; [exact H1|]. split; [exact H2|].
  exact (ceiling_rejection xf5 [x00] (mkState 0 0 []) H1 H2).
Defined.

(** The bytes before an index are all present and not NUL only up to the
    first NUL. *)
Lemma strlen_ge s k :
  nul_terminated s ->
  (forall i, 0 <= i < k -> exists b, byte_at s i = Some b /\ val b <> 0) ->
  k <= strlen s.
Proof.
  intros Hs Hbytes.
  destruct (Z_le_gt_dec k (strlen s)) as [|Hgt]; [assumption|].
  destruct (Hbytes (strlen s)) as (b & Hb & Hnz).
  - pose proof (strlen_nonneg s). lia.
  - apply byte_at_strlen in Hb. contradiction.
Qed.

Lemma ill_formed_lead s :
  well_formed_len s = None -> val (get s 0) <> 0.
Proof.
  unfold well_formed_len. cbv zeta.
  destruct (Z.leb_spec (val (get s 0)) 0x7F); [discriminate|lia].
Qed.

Lemma illegal_run_within s max k :
  nul_terminated s -> val (get s 0) <> 0 ->
  illegal_run s max k -> k <= strlen s.
Proof.
  intros Hs Hlead (_ & Hbytes & _).
  apply strlen_ge; [assumption|].
  intros i Hi.
  destruct (Z.eq_dec i 0) as [->|Hne].
  - unfold get in Hlead.
    destruct (byte_at s 0) as [b|]; [eauto|].
    exfalso. apply Hlead. reflexivity.
  - destruct (Hbytes i) as (b & Hb & Hnz & _); [lia|eauto].
Qed.

(** C2. The illegal run: when utf8clen returns 0 on a NUL-terminated
    string, the stored length [k] is at least 1; the bytes at offsets
    1 .. k-1 are present, not NUL and not a first byte; [k] does not
    exceed the cap of the lead byte (2, 3 or 4 for the lead of a 2-, 3- or
    4-byte sequence, SIZE_MAX otherwise) nor the offset of the first NUL;
    either the cap was reached or the byte at offset [k] is the
    terminator or a first byte; and the cap SIZE_MAX of a byte that is
    never a lead is not reached in an array that C can hold. *)
Theorem illegal_run_length (s : cstr) (st st' : state) :
  nul_terminated s ->
  utf8clen (Ref s) (Ref IllLen) st = Ok 0 st' ->
  let k := illlen_obj st' in
  let cap := illegal_cap (get s 0) in
  classify 0 st' = Invalid k /\
  1 <= k /\
  (forall i, 1 <= i < k ->
     exists b, byte_at s i = Some b /\ val b <> 0 /\ ~ first_byte b) /\
  k <= cap /\
  k <= strlen s /\
  (k = cap \/
   exists b, byte_at s k = Some b /\ (val b = 0 \/ first_byte b)) /\
  (cap = SIZE_MAX -> Z.of_nat (length s) <= SIZE_MAX -> k < cap).
Proof.
  intros Hs Hcall k cap.
  destruct (utf8clen_spec s st Hs) as (r & st2 & Hcall2 & Hpost).
  rewrite Hcall in Hcall2. injection Hcall2 as <- <-.
  destruct (well_formed_len s) as [n|] eqn:Hw.
  { destruct Hpost as (Hr & _).
    apply well_formed_len_range in Hw. lia. }
  destruct Hpost as (_ & k' & st1 & evs & Hsafe & Hst & Hrun).
  assert (Hk : k = k') by (unfold k; rewrite Hst; reflexivity).
  rewrite <- Hk in Hrun. fold cap in Hrun.
  pose proof (illegal_run_within s cap k Hs (ill_formed_lead s Hw) Hrun)
    as Hwithin.
  destruct Hrun as (Hrange & Hbytes & Hstop).
  split; [reflexivity|]. split; [lia|].
  split; [|split; [lia|split; [|split]]].
  - intros i Hi. destruct (Hbytes i Hi) as (b & Hb & Hnz & Hnf).
    exists b. split; [assumption|]. split; [assumption|].
    apply not_first_byte. assumption.
  - assumption.
  - destruct Hstop as [H|(b & Hb & Hend)]; [left; assumption|].
    right. exists b. split; [assumption|].
    destruct Hend as [H|H]; [left; assumption|].
    right. apply is_utf8firstb_first_byte. assumption.
  - intros Hcap Hsize. pose proof (strlen_lt_length s Hs). lia.
Qed.

Lemma illegal_run_length_continuations :
  nul_terminated [x80; x80; x80; x00] /\
  utf8clen (Ref [x80; x80; x80; x00]) (Ref IllLen) (mkState 0 0 [])
    = Ok 0 (mkState 3 0
              [EvStoreIlllen 3; EvRead 3; EvRead 2; EvRead 1; EvRead 0]) /\
  (classify 0 (mkState 3 0
                 [EvStoreIlllen 3; EvRead 3; EvRead 2; EvRead 1; EvRead 0])
   = Invalid 3 /\
   1 <= 3 /\
   (forall i, 1 <= i < 3 ->
      exists b, byte_at [x80; x80; x80; x00] i = Some b /\
                val b <> 0 /\ ~ first_byte b) /\
   3 <= illegal_cap (get [x80; x80; x80; x00] 0) /\
   3 <= strlen [x80; x80; x80; x00] /\
   (3 = illegal_cap (get [x80; x80; x80; x00] 0) \/
    exists b, byte_at [x80; x80; x80; x00] 3 = Some b /\
              (val b = 0 \/ first_byte b)) /\
   (illegal_cap (get [x80; x80; x80; x00] 0) = SIZE_MAX ->
    Z.of_nat (length [x80; x80; x80; x00]) <= SIZE_MAX ->
    3 < illegal_cap (get [x80; x80; x80; x00] 0))).
Proof.
  assert (H1 : nul_terminated [x80; x80; x80; x00])
    by (right; right; right; left; reflexivity).
  assert (H2 : utf8clen (Ref [x80; x80; x80; x00]) (Ref IllLen)
                 (mkState 0 0 [])
               = Ok 0 (mkState 3 0
                         [EvStoreIlllen 3; EvRead 3; EvRead 2; EvRead 1;
                          EvRead 0]))
    by reflexivity.
  split; [exact H1|]. split; [exact H2|].
  exact (illegal_run_length _ _ _ H1 H2).
Defined.

(** C4. Totality and read bounds: on a NUL-terminated string utf8clen
    returns, with a value in 1..4 (Valid) or with 0 after storing an
    illegal run of at least 1 (Invalid); every index it loads lies between
    0 and the index of the first NUL, so no load follows a NUL at an
    earlier offset and no load is out of bounds. *)
Theorem totality_and_read_bounds (s : cstr) (st : state) :
  nul_terminated s ->
  exists r st' evs,
    utf8clen (Ref s) (Ref IllLen) st = Ok r st' /\
    trace st' = evs ++ trace st /\
    ((1 <= r <= 4 /\ classify r st' = Valid r) \/
     (r = 0 /\ classify r st' = Invalid (illlen_obj st') /\
      1 <= illlen_obj st')) /\
    (forall i, In (EvRead i) evs -> 0 <= i <= strlen s) /\
    (forall i j, In (EvRead i) evs -> 0 <= j < i ->
       exists b, byte_at s j = Some b /\ val b <> 0).
Proof.
  intros Hs.
  destruct (utf8clen_spec s st Hs) as (r & st' & Hcall & Hpost).
  assert (Hgoal : exists evs,
             trace st' = evs ++ trace st /\
             ((1 <= r <= 4 /\ classify r st' = Valid r) \/
              (r = 0 /\ classify r st' = Invalid (illlen_obj st') /\
               1 <= illlen_obj st')) /\
             (forall i, In (EvRead i) evs -> 0 <= i <= strlen s)).
  { destruct (well_formed_len s) as [n|] eqn:Hw.
    - destruct Hpost as (-> & evs & Hsafe).
      exists evs. split; [|split].
      + destruct Hsafe as [-> _]. reflexivity.
      + left. apply well_formed_len_range in Hw.
        split; [assumption|]. apply classify_valid. assumption.
      + intros i Hi. eapply safe_reads_In; eassumption.
    - destruct Hpost as (-> & k & st1 & evs & Hsafe & -> & Hrun).
      exists (EvStoreIlllen k :: evs). split; [|split].
      + destruct Hsafe as [-> _]. reflexivity.
      + right. split; [reflexivity|]. split; [reflexivity|]. apply Hrun.
      + intros i [Hi|Hi]; [discriminate|].
        eapply safe_reads_In; eassumption. }
  destruct Hgoal as (evs & Htrace & Hres & Hreads).
  exists r, st', evs.
  split; [assumption|]. split; [assumption|]. split; [assumption|].
  split; [assumption|].
  intros i j Hi Hj. apply byte_at_below_strlen.
  specialize (Hreads i Hi). lia.
Qed.

Lemma totality_and_read_bounds_truncated :
  nul_terminated [xe3; x81; x00; x41] /\
  exists r st' evs,
    utf8clen (Ref [xe3; x81; x00; x41]) (Ref IllLen) (mkState 0 0 [])
      = Ok r st' /\
    trace st' = evs ++ [] /\
    ((1 <= r <= 4 /\ classify r st' = Valid r) \/
     (r = 0 /\ classify r st' = Invalid (illlen_obj st') /\
      1 <= illlen_obj st')) /\
    (forall i, In (EvRead i) evs -> 0 <= i <= strlen [xe3; x81; x00; x41]) /\
    (forall i j, In (EvRead i) evs -> 0 <= j < i ->
       exists b, byte_at [xe3; x81; x00; x41] j = Some b /\ val b <> 0).
Proof.
  assert (H : nul_terminated [xe3; x81; x00; x41])
    by (right; right; left; reflexivity).
  split; [exact H|].
  exact (totality_and_read_bounds [xe3; x81; x00; x41] (mkState 0 0 []) H).
Defined.

(** C10. Return values and frame: a call whose string, when both pointers
    are set, is NUL-terminated returns one of 0, 1, 2, 3, 4 and SIZE_MAX;
    it stores through [illlen] exactly when it returns 0, once, a value of
    at least 1; when it returns 1..4 or SIZE_MAX nothing is stored and
    [*illlen] keeps its value. *)
Theorem return_values_and_frame (s : pointer cstr)
  (illlen : pointer out_object) (st : state) :
  valid_call s illlen ->
  exists r st' evs,
    utf8clen s illlen st = Ok r st' /\
    trace st' = evs ++ trace st /\
    (r = 0 \/ r = 1 \/ r = 2 \/ r = 3 \/ r = 4 \/ r = SIZE_MAX) /\
    (stores evs <> [] <-> r = 0) /\
    (r = 0 ->
     exists k, 1 <= k /\ stores evs = [k] /\ illlen_obj st' = k) /\
    (r <> 0 -> stores evs = [] /\ illlen_obj st' = illlen_obj st).
Proof.
  intros Hvalid.
  assert (Herr : forall s' i',
             utf8clen s' i' st
             = Ok SIZE_MAX (mkState (illlen_obj st) EINVAL
                              (EvSetErrno EINVAL :: trace st)) ->
             exists r st' evs,
               utf8clen s' i' st = Ok r st' /\
               trace st' = evs ++ trace st /\
               (r = 0 \/ r = 1 \/ r = 2 \/ r = 3 \/ r = 4 \/ r = SIZE_MAX) /\
               (stores evs <> [] <-> r = 0) /\
               (r = 0 ->
                exists k, 1 <= k /\ stores evs = [k] /\ illlen_obj st' = k) /\
               (r <> 0 -> stores evs = [] /\ illlen_obj st' = illlen_obj st)).
  { intros s' i' H. eexists _, _, [EvSetErrno EINVAL].
    split; [exact H|]. split; [reflexivity|].
    split; [tauto|]. unfold SIZE_MAX. cbn [stores flat_map app].
    split; [split; [congruence|discriminate]|].
    split; [discriminate|]. intros _. split; reflexivity. }
  destruct s as [|buf]; [apply Herr; reflexivity|].
  destruct illlen as [|[]]; [apply Herr; reflexivity|].
  cbn [valid_call] in Hvalid.
  destruct (utf8clen_spec buf st Hvalid) as (r & st' & Hcall & Hpost).
  destruct (well_formed_len buf) as [n|] eqn:Hw.
  - destruct Hpost as (-> & evs & Hsafe).
    apply well_formed_len_range in Hw.
    pose proof (stores_reads _ _ _ _ Hsafe) as Hst.
    destruct Hsafe as [-> _].
    eexists n, _, evs. split; [exact Hcall|]. split; [reflexivity|].
    split; [lia|]. rewrite Hst.
    split; [split; [congruence|lia]|].
    split; [lia|]. intros _. split; reflexivity.
  - destruct Hpost as (-> & k & st1 & evs & Hsafe & -> & Hrun).
    pose proof (stores_reads _ _ _ _ Hsafe) as Hst.
    destruct Hsafe as [-> _].
    eexists 0, _, (EvStoreIlllen k :: evs).
    split; [exact Hcall|]. split; [reflexivity|].
    split; [tauto|].
    cbn [stores flat_map app]. fold (stores evs). rewrite Hst.
    split; [split; [reflexivity|discriminate]|].
    split; [|congruence].
    intros _. exists k. split; [apply Hrun|]. split; reflexivity.
Qed.

Lemma return_values_and_frame_valid :
  valid_call (Ref [xc2; xa9; x00]) (Ref IllLen) /\
  exists r st' evs,
    utf8clen (Ref [xc2; xa9; x00]) (Ref IllLen) (mkState 9 0 []) = Ok r st' /\
    trace st' = evs ++ [] /\
    (r = 0 \/ r = 1 \/ r = 2 \/ r = 3 \/ r = 4 \/ r = SIZE_MAX) /\
    (stores evs <> [] <-> r = 0) /\
    (r = 0 ->
     exists k, 1 <= k /\ stores evs = [k] /\ illlen_obj st' = k) /\
    (r <> 0 -> stores evs = [] /\ illlen_obj st' = 9).
Proof.
  assert (H : valid_call (Ref [xc2; xa9; x00]) (Ref IllLen))
    by (right; right; left; reflexivity).
  split; [exact H|].
  exact (return_values_and_frame (Ref [xc2; xa9; x00]) (Ref IllLen)
           (mkState 9 0 []) H).
Defined.

(** ** The encoder *)

Lemma val_byte_of z : 0 <= z <= 255 -> val (byte_of z) = z.
Proof.
  intros Hz. unfold val, byte_of.
  pose proof (Byte.to_of_N_option_map (Z.to_N z)) as H.
  destruct (Byte.of_N (Z.to_N z)) as [b|]; cbn [option_map] in H.
  - destruct (N.leb_spec (Z.to_N z) 255) as [_|Hgt]; [|discriminate].
    injection H as ->. lia.
  - destruct (N.leb_spec (Z.to_N z) 255) as [_|Hgt]; [discriminate|lia].
Qed.

(** [hi | x] adds [x] to [hi] when [x] fits in the [n] low bits that [hi]
    leaves clear. *)
Lemma lor_low_bits hi x n :
  0 <= n -> 0 <= x < 2 ^ n -> Z.land hi (Z.ones n) = 0 ->
  Z.lor hi x = hi + x.
Proof.
  intros Hn Hx Hhi.
  assert (Hland : Z.land hi x = 0).
  { rewrite <- (Z.mod_small x (2 ^ n)) by assumption.
    rewrite <- Z.land_ones by assumption.
    rewrite (Z.land_comm x), Z.land_assoc, Hhi. apply Z.land_0_l. }
  rewrite <- Z.lxor_lor by assumption.
  symmetry. apply Z.add_nocarry_lxor. assumption.
Qed.

(** A continuation byte of the encoder: [0x80 | ((cp >> sh) & 0x3F)]. *)
Lemma encode_tail_val cp sh :
  0 <= sh ->
  val (byte_of (Z.lor 0x80 (Z.land (Z.shiftr cp sh) 0x3F)))
  = 0x80 + (cp / 2 ^ sh) mod 64.
Proof.
  intros Hsh.
  rewrite Z.shiftr_div_pow2 by assumption.
  change 0x3F with (Z.ones 6). rewrite Z.land_ones by lia.
  change (2 ^ 6) with 64.
  pose proof (Z.mod_pos_bound (cp / 2 ^ sh) 64 ltac:(lia)) as Hm.
  rewrite (lor_low_bits 0x80 _ 6); [|lia|change (2 ^ 6) with 64; lia
                                    |reflexivity].
  apply val_byte_of. lia.
Qed.

(** A lead byte of the encoder: [hi | (cp >> sh)]. *)
Lemma encode_lead_val hi cp sh n :
  0 <= sh -> 0 <= n -> 0 <= cp / 2 ^ sh < 2 ^ n ->
  Z.land hi (Z.ones n) = 0 -> 0 <= hi -> hi + cp / 2 ^ sh <= 255 ->
  val (byte_of (Z.lor hi (Z.shiftr cp sh))) = hi + cp / 2 ^ sh.
Proof.
  intros Hsh Hn Hq Hhi Hpos Hmax.
  rewrite Z.shiftr_div_pow2 by assumption.
  rewrite (lor_low_bits hi _ n) by assumption.
  apply val_byte_of. lia.
Qed.

Example utf8_encode_samples :
  map utf8_encode [0x41; 0xA9; 0x20AC; 0x1F602; 0; 0xD7FF; 0x10FFFF]
  = [ [x41]; [xc2; xa9]; [xe2; x82; xac]; [xf0; x9f; x98; x82]; [x00];
      [xed; x9f; xbf]; [xf4; x8f; xbf; xbf] ].
Proof. reflexivity. Qed.

(** The encoder loses nothing: the payload bits of its output are the
    scalar value. *)
Lemma utf8_decode_encode cp :
  0 <= cp <= 0x10FFFF -> utf8_decode (utf8_encode cp) = Some cp.
Proof.
  intros Hcp. unfold utf8_encode. cbv zeta.
  destruct (Z.ltb_spec cp 0x80) as [H1|H1];
    [|destruct (Z.ltb_spec cp 0x800) as [H2|H2];
      [|destruct (Z.ltb_spec cp 0x10000) as [H3|H3]]];
    cbn [utf8_decode].
  - rewrite val_byte_of by lia. reflexivity.
  - rewrite !encode_tail_val by lia.
    rewrite (encode_lead_val 0xC0 cp 6 5);
      try reflexivity; try lia;
      try (change (2 ^ 5) with 32; Z.div_mod_to_equations; lia);
      try (Z.div_mod_to_equations; lia).
    f_equal. Z.div_mod_to_equations. lia.
  - rewrite !encode_tail_val by lia.
    rewrite (encode_lead_val 0xE0 cp 12 4);
      try reflexivity; try lia;
      try (change (2 ^ 4) with 16; Z.div_mod_to_equations; lia);
      try (Z.div_mod_to_equations; lia).
    f_equal. Z.div_mod_to_equations. lia.
  - rewrite !encode_tail_val by lia.
    rewrite (encode_lead_val 0xF0 cp 18 3);
      try reflexivity; try lia;
      try (change (2 ^ 3) with 8; Z.div_mod_to_equations; lia);
      try (Z.div_mod_to_equations; lia).
    f_equal. Z.div_mod_to_equations. lia.
Qed.

(** The encoding of a scalar value is a row of Table 3-7, whatever
    follows it. *)
Lemma encode_well_formed cp rest :
  0 <= cp <= 0x10FFFF -> ~ (0xD800 <= cp <= 0xDFFF) ->
  well_formed_len (utf8_encode cp ++ rest)
  = Some (Z.of_nat (length (utf8_encode cp))).
Proof.
  intros Hcp Hsur. unfold utf8_encode. cbv zeta.
  destruct (Z.ltb_spec cp 0x80) as [H1|H1];
    [|destruct (Z.ltb_spec cp 0x800) as [H2|H2];
      [|destruct (Z.ltb_spec cp 0x10000) as [H3|H3]]];
    cbn [app length Z.of_nat Pos.of_succ_nat Pos.succ]; table.
  - rewrite val_byte_of by lia. decide_cmp.
  - rewrite !encode_tail_val by lia.
    rewrite (encode_lead_val 0xC0 cp 6 5);
      try reflexivity; try lia;
      try (change (2 ^ 5) with 32; Z.div_mod_to_equations; lia);
      try (Z.div_mod_to_equations; lia).
    assert (Hq : 2 <= cp / 2 ^ 6 <= 31) by (Z.div_mod_to_equations; lia).
    pose proof (Z.mod_pos_bound (cp / 2 ^ 0) 64 ltac:(lia)) as Ht0.
    set (q := cp / 2 ^ 6) in *. set (t0 := (cp / 2 ^ 0) mod 64) in *.
    decide_cmp.
  - rewrite !encode_tail_val by lia.
    rewrite (encode_lead_val 0xE0 cp 12 4);
      try reflexivity; try lia;
      try (change (2 ^ 4) with 16; Z.div_mod_to_equations; lia);
      try (Z.div_mod_to_equations; lia).
    assert (Hq : 0 <= cp / 2 ^ 12 <= 15) by (Z.div_mod_to_equations; lia).
    assert (Hlo : cp / 2 ^ 12 = 0 -> 32 <= (cp / 2 ^ 6) mod 64)
      by (intros; Z.div_mod_to_equations; lia).
    assert (Hhi : cp / 2 ^ 12 = 13 -> (cp / 2 ^ 6) mod 64 <= 31)
      by (intros; Z.div_mod_to_equations; lia).
    pose proof (Z.mod_pos_bound (cp / 2 ^ 6) 64 ltac:(lia)) as Ht6.
    pose proof (Z.mod_pos_bound (cp / 2 ^ 0) 64 ltac:(lia)) as Ht0.
    set (q := cp / 2 ^ 12) in *. set (t6 := (cp / 2 ^ 6) mod 64) in *.
    set (t0 := (cp / 2 ^ 0) mod 64) in *.
    decide_cmp.
  - rewrite !encode_tail_val by lia.
    rewrite (encode_lead_val 0xF0 cp 18 3);
      try reflexivity; try lia;
      try (change (2 ^ 3) with 8; Z.div_mod_to_equations; lia);
      try (Z.div_mod_to_equations; lia).
    assert (Hq : 0 <= cp / 2 ^ 18 <= 4) by (Z.div_mod_to_equations; lia).
    assert (Hlo : cp / 2 ^ 18 = 0 -> 16 <= (cp / 2 ^ 12) mod 64)
      by (intros; Z.div_mod_to_equations; lia).
    assert (Hhi : cp / 2 ^ 18 = 4 -> (cp / 2 ^ 12) mod 64 <= 15)
      by (intros; Z.div_mod_to_equations; lia).
    pose proof (Z.mod_pos_bound (cp / 2 ^ 12) 64 ltac:(lia)) as Ht12.
    pose proof (Z.mod_pos_bound (cp / 2 ^ 6) 64 ltac:(lia)) as Ht6.
    pose proof (Z.mod_pos_bound (cp / 2 ^ 0) 64 ltac:(lia)) as Ht0.
    set (q := cp / 2 ^ 18) in *. set (t12 := (cp / 2 ^ 12) mod 64) in *.
    set (t6 := (cp / 2 ^ 6) mod 64) in *.
    set (t0 := (cp / 2 ^ 0) mod 64) in *.
    decide_cmp.
Qed.

(** C1. Round trip: for every scalar value (U+0000..U+10FFFF without the
    surrogates U+D800..U+DFFF), utf8clen on the NUL-terminated encoding
    returns the number [n] of bytes the encoder produced, [n] in 1..4,
    which is Valid(n); the call only loads, so [*illlen] and [errno] keep
    their values. *)
Theorem roundtrip_well_formed (cp : Z) (st : state) :
  0 <= cp <= 0x10FFFF -> ~ (0xD800 <= cp <= 0xDFFF) ->
  let n := Z.of_nat (length (utf8_encode cp)) in
  1 <= n <= 4 /\
  exists st' evs,
    utf8clen (Ref (utf8_encode cp ++ [x00])) (Ref IllLen) st = Ok n st' /\
    classify n st' = Valid n /\
    st' = mkState (illlen_obj st) (errno st) (evs ++ trace st) /\
    Forall is_read evs.
Proof.
  intros Hcp Hsur n.
  pose proof (encode_well_formed cp [x00] Hcp Hsur) as Hw. fold n in Hw.
  assert (Hn : 1 <= n <= 4) by (eapply well_formed_len_range; exact Hw).
  split; [exact Hn|].
  assert (Hs : nul_terminated (utf8_encode cp ++ [x00]))
    by (apply in_or_app; right; left; reflexivity).
  destruct (utf8clen_well_formed _ st n Hs Hw) as (st' & evs & Hcall & Hsafe).
  exists st', evs. split; [exact Hcall|].
  split; [apply classify_valid; exact Hn|].
  split; [apply Hsafe|].
  eapply safe_reads_is_read. exact Hsafe.
Qed.

Lemma roundtrip_well_formed_euro :
  0 <= 0x20AC <= 0x10FFFF /\ ~ (0xD800 <= 0x20AC <= 0xDFFF) /\
  1 <= 3 <= 4 /\
  exists st' evs,
    utf8clen (Ref [xe2; x82; xac; x00]) (Ref IllLen) (mkState 0 0 [])
      = Ok 3 st' /\
    classify 3 st' = Valid 3 /\
    st' = mkState 0 0 (evs ++ []) /\
    Forall is_read evs.
Proof.
  assert (H1 : 0 <= 0x20AC <= 0x10FFFF) by lia.
  assert (H2 : ~ (0xD800 <= 0x20AC <= 0xDFFF)) by lia.
  split; [exact H1|]. split; [exact H2|].
  exact (roundtrip_well_formed 0x20AC (mkState 0 0 []) H1 H2).
Defined.

(** ** The loop bound of the embedding is never hit *)

Lemma byte_at_length s i c :
  byte_at s i = Some c -> 0 <= i < Z.of_nat (length s).
Proof.
  unfold byte_at. destruct (Z.ltb_spec i 0) as [Hneg|Hpos]; [discriminate|].
  intros Hnth.
  assert (Hlt : (Z.to_nat i < length s)%nat)
    by (apply nth_error_Some; congruence).
  lia.
Qed.

Lemma within_fuel_ret A (a : A) : within_fuel (ret a).
Proof. intros st. discriminate. Qed.

Lemma within_fuel_load s i : within_fuel (load s i).
Proof. intros st. unfold load. destruct (byte_at s i); discriminate. Qed.

Lemma within_fuel_bind A B (m : M A) (k : A -> M B) :
  within_fuel m -> (forall a, within_fuel (k a)) -> within_fuel (bind m k).
Proof.
  intros Hm Hk st. unfold bind.
  destruct (m st) as [a st'| |] eqn:E.
  - apply Hk.
  - discriminate.
  - exfalso. exact (Hm st E).
Qed.

Lemma within_fuel_store v : within_fuel (store_illlen v).
Proof. intros st. discriminate. Qed.

Lemma within_fuel_if A (b : bool) (m1 m2 : M A) :
  within_fuel m1 -> within_fuel m2 -> within_fuel (if b then m1 else m2).
Proof. destruct b; auto. Qed.

#[local] Hint Resolve within_fuel_ret within_fuel_load within_fuel_bind
  within_fuel_store within_fuel_if : fuel.

Lemma within_fuel_tail_at s i : within_fuel (tail_at s i).
Proof. unfold tail_at. auto with fuel. Qed.

Lemma within_fuel_ge_at s i lo : within_fuel (ge_at s i lo).
Proof. unfold ge_at. auto with fuel. Qed.

Lemma within_fuel_le_at s i hi : within_fuel (le_at s i hi).
Proof. unfold le_at. auto with fuel. Qed.

Lemma within_fuel_andM a b :
  within_fuel a -> within_fuel b -> within_fuel (a &&& b).
Proof. intros Ha Hb. unfold andM. auto with fuel. Qed.

(** With [c = s[len]] loaded, the bytes after [len] are fewer than the
    fuel that is left. *)
Lemma count_loop_within_fuel s max fuel :
  forall len c,
    byte_at s len = Some c ->
    Z.of_nat (length s) <= len + Z.of_nat fuel ->
    within_fuel (count_loop fuel s max len c).
Proof.
  induction fuel as [|fuel IH]; intros len c Hc Hfuel st.
  - apply byte_at_length in Hc. lia.
  - cbn [count_loop].
    destruct (run_continues c len max); [|discriminate].
    unfold bind, load.
    destruct (byte_at s (len + 1)) as [c'|] eqn:Hc'; [|discriminate].
    apply IH; [assumption|lia].
Qed.

Lemma within_fuel_count_illegal_sequences s max :
  within_fuel (count_illegal_sequences s max).
Proof.
  intros st. unfold count_illegal_sequences, bind at 1, load.
  destruct (byte_at s 1) as [c|] eqn:Hc; [|discriminate].
  apply within_fuel_bind; [|auto with fuel].
  apply count_loop_within_fuel; [assumption|lia].
Qed.

#[local] Hint Resolve within_fuel_tail_at within_fuel_ge_at
  within_fuel_le_at within_fuel_andM within_fuel_count_illegal_sequences
  : fuel.

(** Whatever the arguments, utf8clen does not end for lack of fuel: a
    call returns, or it loads outside the array. *)
Lemma utf8clen_within_fuel s illlen : within_fuel (utf8clen s illlen).
Proof.
  destruct s as [|buf]; [intros st; discriminate|].
  destruct illlen as [|[]]; [intros st; discriminate|].
  unfold utf8clen, utf8clen_body.
  apply within_fuel_bind; [auto with fuel|]. intros c.
  repeat (apply within_fuel_if; [auto 10 with fuel|]).
  auto 10 with fuel.
Qed.

(** * Further properties of utf8clen *)

(** ** Table 3-7 as a relation *)

Lemma val_inj a b : val a = val b -> a = b.
Proof.
  unfold val. intros H. apply N2Z.inj in H.
  assert (Hs : Some a = Some b)
    by (rewrite <- (Byte.of_to_N a), <- (Byte.of_to_N b), H; reflexivity).
  injection Hs as ->. reflexivity.
Qed.

Lemma if_some (b : bool) (m n : Z) :
  (if b then Some m else None) = Some n <-> b = true /\ n = m.
Proof.
  destruct b; split.
  - intros [= <-]. auto.
  - intros [_ ->]. reflexivity.
  - discriminate.
  - intros [H _]. discriminate H.
Qed.

(** Settles the tests on the lead value [v] from the hypotheses. *)
Ltac lead_tests v :=
  repeat
    (match goal with
     | |- context [v <=? ?c] =>
         first [ replace (v <=? c) with true
                   by (symmetry; apply Z.leb_le; lia)
               | replace (v <=? c) with false
                   by (symmetry; apply Z.leb_gt; lia) ]
     | |- context [in_range ?a ?b v] =>
         first [ replace (in_range a b v) with true
                   by (symmetry; apply in_range_iff; lia)
               | replace (in_range a b v) with false
                   by (symmetry; apply in_range_false; lia) ]
     | |- context [v =? ?c] =>
         first [ replace (v =? c) with true
                   by (symmetry; apply Z.eqb_eq; lia)
               | replace (v =? c) with false
                   by (symmetry; apply Z.eqb_neq; lia) ]
     end; cbn [orb andb]).

Lemma well_formed_len_row s n :
  well_formed_len s = Some n <->
  table_row (val (get s 0)) (val (get s 1)) (val (get s 2))
    (val (get s 3)) n.
Proof.
  unfold well_formed_len, is_cont. cbv zeta.
  pose proof (val_bound (get s 0)) as H0.
  set (v0 := val (get s 0)) in *. set (v1 := val (get s 1)).
  set (v2 := val (get s 2)). set (v3 := val (get s 3)).
  clearbody v0 v1 v2 v3.
  assert (Hlead : v0 <= 0x7F \/ 0x80 <= v0 <= 0xC1 \/ 0xC2 <= v0 <= 0xDF \/
                  v0 = 0xE0 \/ 0xE1 <= v0 <= 0xEC \/ v0 = 0xED \/
                  0xEE <= v0 <= 0xEF \/ v0 = 0xF0 \/ 0xF1 <= v0 <= 0xF3 \/
                  v0 = 0xF4 \/ 0xF5 <= v0) by lia.
  unfold table_row.
  repeat (destruct Hlead as [Hlead|Hlead]);
    lead_tests v0;
    rewrite ?if_some, ?andb_true_iff, ?in_range_iff;
    (split; [intros Hw; try discriminate Hw;
             try (injection Hw as <-); lia
            |intros Hrow; try (f_equal; lia); exfalso; lia]).
Qed.

Lemma byte_of_val b : byte_of (val b) = b.
Proof. apply val_inj, val_byte_of, val_bound. Qed.

Lemma get_present s i : val (get s i) <> 0 -> byte_at s i = Some (get s i).
Proof.
  unfold get. destruct (byte_at s i); [reflexivity|].
  intros H. exfalso. apply H. reflexivity.
Qed.

Lemma get_head_present s : nul_terminated s -> byte_at s 0 = Some (get s 0).
Proof. destruct s as [|b tl]; [intros []|reflexivity]. Qed.

(** The first [n] bytes of a string that has them. *)
Lemma prefix_bytes s n :
  1 <= n <= 4 ->
  (forall i, 0 <= i < n -> byte_at s i = Some (get s i)) ->
  firstn (Z.to_nat n) s
  = firstn (Z.to_nat n) [get s 0; get s 1; get s 2; get s 3].
Proof.
  intros Hn Hbytes.
  assert (Hcases : n = 1 \/ n = 2 \/ n = 3 \/ n = 4) by lia.
  destruct s as [|b0 [|b1 [|b2 [|b3 rest]]]];
    destruct Hcases as [-> | [-> | [-> | ->]]];
    try reflexivity;
    try (specialize (Hbytes 0 ltac:(lia)); discriminate Hbytes);
    try (specialize (Hbytes 1 ltac:(lia)); discriminate Hbytes);
    try (specialize (Hbytes 2 ltac:(lia)); discriminate Hbytes);
    try (specialize (Hbytes 3 ltac:(lia)); discriminate Hbytes).
Qed.

(** The bytes of a well-formed sequence are all there, and none of them
    but a lone NUL is NUL. *)
Lemma well_formed_present s n :
  nul_terminated s -> well_formed_len s = Some n ->
  forall i, 0 <= i < n -> byte_at s i = Some (get s i).
Proof.
  intros Hs Hw i Hi.
  destruct (Z.eq_dec i 0) as [->|Hne]; [apply get_head_present, Hs|].
  apply get_present.
  apply well_formed_len_row in Hw. unfold table_row in Hw.
  assert (Hcases : i = 1 \/ i = 2 \/ i = 3)
    by (destruct Hw as [H|[H|[H|H]]]; lia).
  destruct Hcases as [-> | [-> | ->]]; lia.
Qed.

(** Every row of Table 3-7 is the encoding of a scalar value. *)
Lemma row_encoding b0 b1 b2 b3 n :
  table_row (val b0) (val b1) (val b2) (val b3) n ->
  exists cp,
    scalar_value cp /\
    utf8_encode cp = firstn (Z.to_nat n) [b0; b1; b2; b3].
Proof.
  unfold table_row, scalar_value.
  pose proof (val_bound b0) as B0. pose proof (val_bound b1) as B1.
  pose proof (val_bound b2) as B2. pose proof (val_bound b3) as B3.
  intros [(Hn & H0)|[(Hn & H0 & H1)|[(Hn & H0 & H1 & H2 & Hlo & Hhi)
                   |(Hn & H0 & H1 & H2 & H3 & Hlo & Hhi)]]]; subst n.
  - exists (val b0). split; [lia|].
    unfold utf8_encode. cbv zeta.
    destruct (Z.ltb_spec (val b0) 0x80); [|lia].
    rewrite byte_of_val. reflexivity.
  - exists ((val b0 - 0xC0) * 2 ^ 6 + (val b1 - 0x80)).
    set (cp := (val b0 - 0xC0) * 2 ^ 6 + (val b1 - 0x80)).
    assert (Hcp : 0x80 <= cp < 0x800) by (unfold cp; lia).
    split; [lia|].
    unfold utf8_encode. cbv zeta.
    destruct (Z.ltb_spec cp 0x80); [lia|].
    destruct (Z.ltb_spec cp 0x800); [|lia].
    change (firstn (Z.to_nat 2) [b0; b1; b2; b3]) with [b0; b1].
    f_equal; [|f_equal]; apply val_inj.
    + rewrite (encode_lead_val 0xC0 cp 6 5);
        try reflexivity; try lia;
        unfold cp; change (2 ^ 5) with 32;
        Z.div_mod_to_equations; lia.
    + rewrite encode_tail_val by lia.
      unfold cp. Z.div_mod_to_equations. lia.
  - exists ((val b0 - 0xE0) * 2 ^ 12 + (val b1 - 0x80) * 2 ^ 6
            + (val b2 - 0x80)).
    set (cp := (val b0 - 0xE0) * 2 ^ 12 + (val b1 - 0x80) * 2 ^ 6
               + (val b2 - 0x80)).
    assert (Hcp : 0x800 <= cp < 0x10000) by (unfold cp; lia).
    split; [unfold cp; lia|].
    unfold utf8_encode. cbv zeta.
    destruct (Z.ltb_spec cp 0x80); [lia|].
    destruct (Z.ltb_spec cp 0x800); [lia|].
    destruct (Z.ltb_spec cp 0x10000); [|lia].
    change (firstn (Z.to_nat 3) [b0; b1; b2; b3]) with [b0; b1; b2].
    f_equal; [|f_equal; [|f_equal]]; apply val_inj.
    + rewrite (encode_lead_val 0xE0 cp 12 4);
        try reflexivity; try lia;
        unfold cp; change (2 ^ 4) with 16;
        Z.div_mod_to_equations; lia.
    + rewrite encode_tail_val by lia.
      unfold cp. Z.div_mod_to_equations. lia.
    + rewrite encode_tail_val by lia.
      unfold cp. Z.div_mod_to_equations. lia.
  - exists ((val b0 - 0xF0) * 2 ^ 18 + (val b1 - 0x80) * 2 ^ 12
            + (val b2 - 0x80) * 2 ^ 6 + (val b3 - 0x80)).
    set (cp := (val b0 - 0xF0) * 2 ^ 18 + (val b1 - 0x80) * 2 ^ 12
               + (val b2 - 0x80) * 2 ^ 6 + (val b3 - 0x80)).
    assert (Hcp : 0x10000 <= cp <= 0x10FFFF) by (unfold cp; lia).
    split; [lia|].
    unfold utf8_encode. cbv zeta.
    destruct (Z.ltb_spec cp 0x80); [lia|].
    destruct (Z.ltb_spec cp 0x800); [lia|].
    destruct (Z.ltb_spec cp 0x10000); [lia|].
    change (firstn (Z.to_nat 4) [b0; b1; b2; b3]) with [b0; b1; b2; b3].
    f_equal; [|f_equal; [|f_equal; [|f_equal]]]; apply val_inj.
    + rewrite (encode_lead_val 0xF0 cp 18 3);
        try reflexivity; try lia;
        unfold cp; change (2 ^ 3) with 8;
        Z.div_mod_to_equations; lia.
    + rewrite encode_tail_val by lia.
      unfold cp. Z.div_mod_to_equations. lia.
    + rewrite encode_tail_val by lia.
      unfold cp. Z.div_mod_to_equations. lia.
    + rewrite encode_tail_val by lia.
      unfold cp. Z.div_mod_to_equations. lia.
Qed.

(** ** Conformance to Table 3-7 *)

(** X1. The return value follows Table 3-7, the rows of which the
    comments of utf8clen.h quote: on a NUL-terminated string the call
    returns [n] in 1..4 exactly when the first bytes match the row of
    length [n], and returns 0 exactly when they match no row. *)
Theorem follows_table_3_7 (s : cstr) (st : state) :
  nul_terminated s ->
  exists r st',
    utf8clen (Ref s) (Ref IllLen) st = Ok r st' /\
    (forall n,
       table_row (val (get s 0)) (val (get s 1)) (val (get s 2))
         (val (get s 3)) n <-> r = n /\ r <> 0) /\
    (r = 0 <->
     forall n, ~ table_row (val (get s 0)) (val (get s 1)) (val (get s 2))
                   (val (get s 3)) n).
Proof.
  intros Hs.
  destruct (utf8clen_spec s st Hs) as (r & st' & Hcall & Hpost).
  exists r, st'. split; [exact Hcall|].
  destruct (well_formed_len s) as [m|] eqn:Hw.
  - destruct Hpost as (-> & _).
    pose proof (well_formed_len_range _ _ Hw) as Hm.
    assert (Hrow : forall n,
               table_row (val (get s 0)) (val (get s 1)) (val (get s 2))
                 (val (get s 3)) n <-> m = n).
    { intros n. rewrite <- well_formed_len_row, Hw.
      split; [intros [= ->]; reflexivity|intros ->; reflexivity]. }
    split.
    + intros n. rewrite Hrow. split; [intros <-; lia|tauto].
    + split; [lia|]. intros Hnone. exfalso.
      apply (Hnone m), Hrow. reflexivity.
  - destruct Hpost as (-> & _).
    assert (Hrow : forall n,
               ~ table_row (val (get s 0)) (val (get s 1)) (val (get s 2))
                   (val (get s 3)) n).
    { intros n Hn. apply well_formed_len_row in Hn. congruence. }
    split.
    + intros n. split; [intros Hn; destruct (Hrow n Hn)|intros [_ H]; lia].
    + split; [intros _; exact Hrow|reflexivity].
Qed.

Lemma follows_table_3_7_hiragana :
  nul_terminated [xe3; x81; x82; x00] /\
  exists r st',
    utf8clen (Ref [xe3; x81; x82; x00]) (Ref IllLen) (mkState 0 0 [])
      = Ok r st' /\
    (forall n,
       table_row (val (get [xe3; x81; x82; x00] 0))
         (val (get [xe3; x81; x82; x00] 1))
         (val (get [xe3; x81; x82; x00] 2))
         (val (get [xe3; x81; x82; x00] 3)) n <-> r = n /\ r <> 0) /\
    (r = 0 <->
     forall n,
       ~ table_row (val (get [xe3; x81; x82; x00] 0))
           (val (get [xe3; x81; x82; x00] 1))
           (val (get [xe3; x81; x82; x00] 2))
           (val (get [xe3; x81; x82; x00] 3)) n).
Proof.
  assert (H : nul_terminated [xe3; x81; x82; x00])
    by (right; right; right; left; reflexivity).
  split; [exact H|].
  exact (follows_table_3_7 [xe3; x81; x82; x00] (mkState 0 0 []) H).
Defined.

(** X2. utf8clen accepts exactly the encodings of scalar values: on a
    NUL-terminated string the result is Valid(n) if and only if the string
    starts with the [n]-byte UTF-8 encoding of a code point in
    U+0000..U+10FFFF that is not a surrogate, whatever follows it. *)
Theorem valid_iff_encoding (s : cstr) (st : state) (n : Z) :
  nul_terminated s ->
  (yields s st (Valid n) <->
   exists cp rest,
     scalar_value cp /\ s = utf8_encode cp ++ rest /\
     Z.of_nat (length (utf8_encode cp)) = n).
Proof.
  intros Hs. split.
  - intros (r & st' & Hcall & Hclass).
    destruct (utf8clen_spec s st Hs) as (r2 & st2 & Hcall2 & Hpost).
    rewrite Hcall in Hcall2. injection Hcall2 as <- <-.
    destruct (well_formed_len s) as [m|] eqn:Hw.
    + destruct Hpost as (-> & _).
      pose proof (well_formed_len_range _ _ Hw) as Hm.
      rewrite classify_valid in Hclass by assumption.
      injection Hclass as <-.
      destruct (row_encoding (get s 0) (get s 1) (get s 2) (get s 3) m)
        as (cp & Hcp & Henc); [apply well_formed_len_row; exact Hw|].
      rewrite <- (prefix_bytes s m Hm (well_formed_present s m Hs Hw))
        in Henc.
      exists cp, (skipn (Z.to_nat m) s).
      split; [exact Hcp|]. split.
      * rewrite Henc. symmetry. apply firstn_skipn.
      * rewrite Henc, length_firstn.
        pose proof (byte_at_length s (m - 1) _
                      (well_formed_present s m Hs Hw (m - 1) ltac:(lia)))
          as Hlen.
        lia.
    + destruct Hpost as (-> & _). discriminate Hclass.
  - intros (cp & rest & (Hrange & Hsur) & -> & <-).
    apply yields_valid; [exact Hs|].
    apply encode_well_formed; assumption.
Qed.

Lemma valid_iff_encoding_accented :
  nul_terminated [xc3; xa1; x5a; x00] /\
  (yields [xc3; xa1; x5a; x00] (mkState 0 0 []) (Valid 2) <->
   exists cp rest,
     scalar_value cp /\ [xc3; xa1; x5a; x00] = utf8_encode cp ++ rest /\
     Z.of_nat (length (utf8_encode cp)) = 2).
Proof.
  assert (H : nul_terminated [xc3; xa1; x5a; x00])
    by (right; right; right; left; reflexivity).
  split; [exact H|].
  exact (valid_iff_encoding [xc3; xa1; x5a; x00] (mkState 0 0 []) 2 H).
Defined.

(** ** The state around a call *)

(** X3. SIZE_MAX and [errno] belong to the parameter error alone: a call
    returns SIZE_MAX and sets [errno] to EINVAL exactly when one of the
    pointers is null; with both pointers set and a NUL-terminated string
    the return value is not SIZE_MAX and [errno] is neither assigned nor
    changed. *)
Theorem errno_only_on_parameter_error (s : pointer cstr)
  (illlen : pointer out_object) (st : state) :
  valid_call s illlen ->
  exists r st' evs,
    utf8clen s illlen st = Ok r st' /\
    trace st' = evs ++ trace st /\
    (((s = NULL \/ illlen = NULL) /\ r = SIZE_MAX /\ errno st' = EINVAL /\
      evs = [EvSetErrno EINVAL]) \/
     (s <> NULL /\ illlen <> NULL /\ r <> SIZE_MAX /\
      errno st' = errno st /\ forall e, ~ In (EvSetErrno e) evs)).
Proof.
  intros Hvalid.
  assert (Herr : s = NULL \/ illlen = NULL ->
                 exists r st' evs,
                   utf8clen s illlen st = Ok r st' /\
                   trace st' = evs ++ trace st /\
                   (((s = NULL \/ illlen = NULL) /\ r = SIZE_MAX /\
                     errno st' = EINVAL /\ evs = [EvSetErrno EINVAL]) \/
                    (s <> NULL /\ illlen <> NULL /\ r <> SIZE_MAX /\
                     errno st' = errno st /\
                     forall e, ~ In (EvSetErrno e) evs))).
  { intros Hnull.
    exists SIZE_MAX,
      (mkState (illlen_obj st) EINVAL (EvSetErrno EINVAL :: trace st)),
      [EvSetErrno EINVAL].
    split; [|split; [reflexivity|left; auto]].
    destruct Hnull as [-> | ->]; [reflexivity|destruct s; reflexivity]. }
  destruct s as [|buf]; [apply Herr; left; reflexivity|].
  destruct illlen as [|[]]; [apply Herr; right; reflexivity|].
  clear Herr. cbn [valid_call] in Hvalid.
  destruct (utf8clen_spec buf st Hvalid) as (r & st' & Hcall & Hpost).
  assert (Hreads : forall evs st0 st1,
             safe_reads buf st0 st1 evs ->
             forall e, ~ In (EvSetErrno e) evs).
  { intros evs st0 st1 [_ Hall] e Hin.
    rewrite Forall_forall in Hall.
    destruct (Hall _ Hin) as (i & Hi & _). discriminate Hi. }
  destruct (well_formed_len buf) as [n|] eqn:Hw.
  - destruct Hpost as (-> & evs & Hsafe).
    apply well_formed_len_range in Hw.
    exists n, st', evs. split; [exact Hcall|].
    pose proof (Hreads _ _ _ Hsafe) as Hno.
    destruct Hsafe as [-> _].
    split; [reflexivity|]. right.
    split; [discriminate|]. split; [discriminate|].
    split; [unfold SIZE_MAX; lia|]. split; [reflexivity|exact Hno].
  - destruct Hpost as (-> & k & st1 & evs & Hsafe & -> & Hrun).
    eexists 0, _, (EvStoreIlllen k :: evs). split; [exact Hcall|].
    pose proof (Hreads _ _ _ Hsafe) as Hno.
    destruct Hsafe as [-> _].
    split; [reflexivity|]. right.
    split; [discriminate|]. split; [discriminate|].
    split; [discriminate|]. split; [reflexivity|].
    intros e [Hin|Hin]; [discriminate Hin|exact (Hno e Hin)].
Qed.

Lemma errno_only_on_parameter_error_invalid :
  valid_call (Ref [xc3; x28; x00]) (Ref IllLen) /\
  exists r st' evs,
    utf8clen (Ref [xc3; x28; x00]) (Ref IllLen) (mkState 0 34 []) = Ok r st' /\
    trace st' = evs ++ [] /\
    (((Ref [xc3; x28; x00] = NULL \/ Ref IllLen = NULL) /\ r = SIZE_MAX /\
      errno st' = EINVAL /\ evs = [EvSetErrno EINVAL]) \/
     (Ref [xc3; x28; x00] <> NULL /\ Ref IllLen <> NULL /\ r <> SIZE_MAX /\
      errno st' = 34 /\ forall e, ~ In (EvSetErrno e) evs)).
Proof.
  assert (H : valid_call (Ref [xc3; x28; x00]) (Ref IllLen))
    by (right; right; left; reflexivity).
  split; [exact H|].
  exact (errno_only_on_parameter_error (Ref [xc3; x28; x00]) (Ref IllLen)
           (mkState 0 34 []) H).
Defined.

(** X4. The result is a function of the string alone: two calls on the
    same NUL-terminated string return the same value and, when that value
    is 0, store the same length, whatever [*illlen], [errno] and the
    history were before each call. *)
Theorem result_independent_of_state (s : cstr) (st1 st2 : state) :
  nul_terminated s ->
  exists r st1' st2',
    utf8clen (Ref s) (Ref IllLen) st1 = Ok r st1' /\
    utf8clen (Ref s) (Ref IllLen) st2 = Ok r st2' /\
    classify r st1' = classify r st2' /\
    (r <> 0 ->
     illlen_obj st1' = illlen_obj st1 /\ illlen_obj st2' = illlen_obj st2).
Proof.
  intros Hs.
  destruct (utf8clen_spec s st1 Hs) as (r1 & st1' & Hcall1 & Hpost1).
  destruct (utf8clen_spec s st2 Hs) as (r2 & st2' & Hcall2 & Hpost2).
  destruct (well_formed_len s) as [n|] eqn:Hw.
  - destruct Hpost1 as (-> & evs1 & [-> _]).
    destruct Hpost2 as (-> & evs2 & [-> _]).
    apply well_formed_len_range in Hw.
    eexists n, _, _. split; [exact Hcall1|]. split; [exact Hcall2|].
    split; [|intros _; split; reflexivity].
    rewrite !classify_valid by assumption. reflexivity.
  - destruct Hpost1 as (-> & k1 & st1a & evs1 & _ & -> & Hrun1).
    destruct Hpost2 as (-> & k2 & st2a & evs2 & _ & -> & Hrun2).
    rewrite (illegal_run_unique _ _ _ _ Hrun2 Hrun1) in *.
    eexists 0, _, _. split; [exact Hcall1|]. split; [exact Hcall2|].
    split; [reflexivity|]. intros H. contradiction H. reflexivity.
Qed.

Lemma result_independent_of_state_run :
  nul_terminated [x80; xbf; x41; x00] /\
  exists r st1' st2',
    utf8clen (Ref [x80; xbf; x41; x00]) (Ref IllLen) (mkState 0 0 [])
      = Ok r st1' /\
    utf8clen (Ref [x80; xbf; x41; x00]) (Ref IllLen)
      (mkState 77 22 [EvSetErrno 22]) = Ok r st2' /\
    classify r st1' = classify r st2' /\
    (r <> 0 -> illlen_obj st1' = 0 /\ illlen_obj st2' = 77).
Proof.
  assert (H : nul_terminated [x80; xbf; x41; x00])
    by (right; right; right; left; reflexivity).
  split; [exact H|].
  exact (result_independent_of_state [x80; xbf; x41; x00] (mkState 0 0 [])
           (mkState 77 22 [EvSetErrno 22]) H).
Defined.

(** ** Moving the cursor *)

Lemma skipn_strlen s :
  forall a,
    0 <= a <= strlen s ->
    strlen (skipn (Z.to_nat a) s) = strlen s - a /\
    (nul_terminated s -> nul_terminated (skipn (Z.to_nat a) s)).
Proof.
  induction s as [|b tl IH]; intros a Ha; cbn [strlen] in Ha.
  - replace a with 0 by lia. split; [reflexivity|auto].
  - destruct (Z.eq_dec a 0) as [->|Hne].
    { split; [cbn [Z.to_nat skipn]; lia|auto]. }
    cbn [strlen]. destruct (Z.eqb_spec (val b) 0) as [E|E]; [lia|].
    replace (Z.to_nat a) with (S (Z.to_nat (a - 1))) by lia.
    cbn [skipn].
    destruct (IH (a - 1)) as [Hlen Hnul]; [lia|].
    split; [lia|].
    intros [Hb|Hin]; [|auto].
    exfalso. apply E. rewrite Hb. reflexivity.
Qed.

Lemma well_formed_nonzero s n :
  well_formed_len s = Some n -> val (get s 0) <> 0 ->
  forall i, 0 <= i < n -> val (get s i) <> 0.
Proof.
  intros Hw Hlead i Hi.
  apply well_formed_len_row in Hw. unfold table_row in Hw.
  assert (Hcases : i = 0 \/ i = 1 \/ i = 2 \/ i = 3)
    by (destruct Hw as [H|[H|[H|H]]]; lia).
  destruct Hcases as [-> | [-> | [-> | ->]]]; lia.
Qed.

(** X5. A caller that moves the cursor by the return value, or by
    [*illlen] after a 0, stays inside the string: when the byte at the
    cursor is not the terminator, the step is at least 1 and at most the
    distance to the terminator, so what remains is a shorter
    NUL-terminated string. *)
Theorem advance_within_string (s : cstr) (st : state) :
  nul_terminated s -> val (get s 0) <> 0 ->
  exists r st',
    utf8clen (Ref s) (Ref IllLen) st = Ok r st' /\
    1 <= advance r st' <= strlen s /\
    nul_terminated (skipn (Z.to_nat (advance r st')) s) /\
    strlen (skipn (Z.to_nat (advance r st')) s)
    = strlen s - advance r st'.
Proof.
  intros Hs Hlead.
  destruct (utf8clen_spec s st Hs) as (r & st' & Hcall & Hpost).
  exists r, st'. split; [exact Hcall|].
  assert (Hadv : 1 <= advance r st' <= strlen s).
  { destruct (well_formed_len s) as [n|] eqn:Hw.
    - destruct Hpost as (-> & _).
      pose proof (well_formed_len_range _ _ Hw) as Hn.
      unfold advance. destruct (Z.eqb_spec n 0); [lia|].
      split; [lia|]. apply strlen_ge; [exact Hs|].
      intros i Hi. exists (get s i).
      pose proof (well_formed_nonzero s n Hw Hlead i Hi) as Hnz.
      split; [apply get_present|]; exact Hnz.
    - destruct Hpost as (-> & k & st1 & evs & _ & -> & Hrun).
      unfold advance. cbn [Z.eqb illlen_obj].
      split; [apply Hrun|].
      eapply illegal_run_within; eassumption. }
  split; [exact Hadv|].
  destruct (skipn_strlen s (advance r st')) as [Hlen Hnul]; [lia|].
  split; [exact (Hnul Hs)|exact Hlen].
Qed.

Lemma advance_within_string_mixed :
  nul_terminated [xe3; x81; x41; x00] /\
  val (get [xe3; x81; x41; x00] 0) <> 0 /\
  exists r st',
    utf8clen (Ref [xe3; x81; x41; x00]) (Ref IllLen) (mkState 0 0 [])
      = Ok r st' /\
    1 <= advance r st' <= strlen [xe3; x81; x41; x00] /\
    nul_terminated (skipn (Z.to_nat (advance r st')) [xe3; x81; x41; x00]) /\
    strlen (skipn (Z.to_nat (advance r st')) [xe3; x81; x41; x00])
    = strlen [xe3; x81; x41; x00] - advance r st'.
Proof.
  assert (H1 : nul_terminated [xe3; x81; x41; x00])
    by (right; right; right; left; reflexivity).
  assert (H2 : val (get [xe3; x81; x41; x00] 0) <> 0)
    by (vm_compute; discriminate).
  split; [exact H1|]. split; [exact H2|].
  exact (advance_within_string [xe3; x81; x41; x00] (mkState 0 0 []) H1 H2).
Defined.

(** ** More illegal runs *)

Lemma stopper_not_cont c : stopper c -> ~ (0x80 <= val c <= 0xBF).
Proof. unfold stopper, first_byte. lia. Qed.

Lemma stopper_ends c : stopper c -> val c = 0 \/ is_utf8firstb c = true.
Proof.
  intros [H|H]; [left; exact H|right].
  apply is_utf8firstb_first_byte. exact H.
Qed.

Lemma cont_illegal c :
  0x80 <= val c <= 0xBF -> val c <> 0 /\ is_utf8firstb c = false.
Proof. intros H. apply cont_not_firstb, is_cont_range, H. Qed.

(** X6. Beyond the ceiling: F4 followed by 90-BF and two continuation
    bytes, the would-be encoding of U+110000..U+13FFFF, is Invalid, and
    the illegal run is the whole sequence, 4 bytes. *)
Theorem beyond_ceiling_rejection (b1 b2 b3 : byte) (rest : cstr)
  (st : state) :
  0x90 <= val b1 <= 0xBF -> 0x80 <= val b2 <= 0xBF ->
  0x80 <= val b3 <= 0xBF -> nul_terminated rest ->
  yields (xf4 :: b1 :: b2 :: b3 :: rest) st (Invalid 4).
Proof.
  intros H1 H2 H3 Hrest.
  apply yields_invalid.
  - right; right; right; right; exact Hrest.
  - table. change (val xf4) with 0xF4. decide_cmp.
  - rewrite get_0. change (illegal_cap xf4) with 4.
    split; [lia|]. split; [|left; reflexivity].
    intros i Hi.
    assert (Hcases : i = 1 \/ i = 2 \/ i = 3) by lia.
    destruct Hcases as [-> | [-> | ->]].
    + exists b1. split; [reflexivity|]. apply cont_illegal. lia.
    + exists b2. split; [reflexivity|]. apply cont_illegal. lia.
    + exists b3. split; [reflexivity|]. apply cont_illegal. lia.
Qed.

Lemma beyond_ceiling_rejection_110000 :
  0x90 <= val x90 <= 0xBF /\ 0x80 <= val x80 <= 0xBF /\
  0x80 <= val x80 <= 0xBF /\ nul_terminated [x00] /\
  yields [xf4; x90; x80; x80; x00] (mkState 0 0 []) (Invalid 4).
Proof.
  assert (H1 : 0x90 <= val x90 <= 0xBF) by (change (val x90) with 0x90; lia).
  assert (H2 : 0x80 <= val x80 <= 0xBF) by (change (val x80) with 0x80; lia).
  assert (H3 : nul_terminated [x00]) by (left; reflexivity).
  split; [exact H1|]. split; [exact H2|]. split; [exact H2|].
  split; [exact H3|].
  exact (beyond_ceiling_rejection x90 x80 x80 [x00] (mkState 0 0 [])
           H1 H2 H2 H3).
Defined.

Lemma byte_at_run b run c rest i :
  1 <= i <= Z.of_nat (length run) ->
  exists x, byte_at (b :: run ++ c :: rest) i = Some x /\ In x run.
Proof.
  intros Hi. rewrite byte_at_tail by lia. unfold byte_at.
  destruct (Z.ltb_spec (i - 1) 0); [lia|].
  rewrite nth_error_app1 by lia.
  destruct (nth_error run (Z.to_nat (i - 1))) as [x|] eqn:Hx.
  - exists x. split; [reflexivity|]. eapply nth_error_In. exact Hx.
  - apply nth_error_None in Hx. lia.
Qed.

Lemma byte_at_after_run b run c rest :
  byte_at (b :: run ++ c :: rest) (1 + Z.of_nat (length run)) = Some c.
Proof.
  rewrite byte_at_tail by lia. unfold byte_at.
  destruct (Z.ltb_spec (1 + Z.of_nat (length run) - 1) 0); [lia|].
  replace (Z.to_nat (1 + Z.of_nat (length run) - 1)) with (length run)
    by lia.
  rewrite nth_error_app2 by lia. rewrite Nat.sub_diag. reflexivity.
Qed.

(** X7. After a byte that is never a lead (80-C1, F5-FF) the illegal run
    has no cap: followed by bytes that are neither NUL nor first bytes and
    then by a NUL or a first byte, the call is Invalid with the lead and
    all of those bytes in the run. *)
Theorem uncapped_run (b : byte) (run : list byte) (c : byte) (rest : cstr)
  (st : state) :
  0x80 <= val b <= 0xC1 \/ 0xF5 <= val b ->
  Forall (fun x => val x <> 0 /\ ~ first_byte x) run ->
  stopper c -> nul_terminated (c :: rest) ->
  1 + Z.of_nat (length run) <= SIZE_MAX ->
  yields (b :: run ++ c :: rest) st (Invalid (1 + Z.of_nat (length run))).
Proof.
  intros Hb Hrun Hc Hrest Hsize.
  apply yields_invalid.
  - right. apply in_or_app. right. exact Hrest.
  - unfold well_formed_len. cbv zeta. rewrite get_0.
    lead_tests (val b). reflexivity.
  - rewrite get_0.
    replace (illegal_cap b) with SIZE_MAX
      by (unfold illegal_cap; lead_tests (val b); reflexivity).
    split; [lia|]. split.
    + intros i Hi.
      destruct (byte_at_run b run c rest i) as (x & Hx & Hin); [lia|].
      rewrite Forall_forall in Hrun. destruct (Hrun x Hin) as [Hnz Hnf].
      exists x. split; [exact Hx|]. split; [exact Hnz|].
      apply not_first_byte. exact Hnf.
    + right. exists c. split; [apply byte_at_after_run|].
      apply stopper_ends. exact Hc.
Qed.

Lemma uncapped_run_five :
  (0x80 <= val xbf <= 0xC1 \/ 0xF5 <= val xbf) /\
  Forall (fun x => val x <> 0 /\ ~ first_byte x) [x80; xc0; xff; x9f] /\
  stopper x41 /\ nul_terminated [x41; x00] /\
  1 + Z.of_nat (length [x80; xc0; xff; x9f]) <= SIZE_MAX /\
  yields [xbf; x80; xc0; xff; x9f; x41; x00] (mkState 0 0 []) (Invalid 5).
Proof.
  assert (H1 : 0x80 <= val xbf <= 0xC1 \/ 0xF5 <= val xbf)
    by (left; change (val xbf) with 0xBF; lia).
  assert (H2 : Forall (fun x => val x <> 0 /\ ~ first_byte x)
                 [x80; xc0; xff; x9f])
    by (repeat (apply Forall_cons;
                  [unfold first_byte; cbv [val Byte.to_N Z.of_N]; lia|]);
        apply Forall_nil).
  assert (H3 : stopper x41)
    by (right; left; change (val x41) with 0x41; lia).
  assert (H4 : nul_terminated [x41; x00]) by (right; left; reflexivity).
  assert (H5 : 1 + Z.of_nat (length [x80; xc0; xff; x9f]) <= SIZE_MAX)
    by (unfold SIZE_MAX; cbn [length]; lia).
  split; [exact H1|]. split; [exact H2|]. split; [exact H3|].
  split; [exact H4|]. split; [exact H5|].
  exact (uncapped_run xbf [x80; xc0; xff; x9f] x41 [x00] (mkState 0 0 [])
           H1 H2 H3 H4 H5).
Defined.

(** A row of Table 3-7 cut after [j] of its bytes by a NUL or a first
    byte. *)
Lemma cut_short_row b0 b1 b2 b3 n j c rest st :
  table_row (val b0) (val b1) (val b2) (val b3) n ->
  (0 < j)%nat -> Z.of_nat j < n ->
  stopper c -> nul_terminated (c :: rest) ->
  yields (firstn j [b0; b1; b2; b3] ++ c :: rest) st (Invalid (Z.of_nat j)).
Proof.
  intros Hrow Hj Hjn Hc Hrest.
  pose proof (stopper_not_cont c Hc) as Hnc.
  pose proof (stopper_ends c Hc) as Hend.
  assert (Hn : n <= 4) by (unfold table_row in Hrow; lia).
  assert (Hlead : 0x7F < val b0) by (unfold table_row in Hrow; lia).
  assert (Hcap : illegal_cap b0 = n).
  { unfold table_row in Hrow. unfold illegal_cap.
    destruct Hrow as [H|[H|[H|H]]]; lead_tests (val b0); lia. }
  assert (Hcases : j = 1%nat \/ j = 2%nat \/ j = 3%nat) by lia.
  destruct Hcases as [-> | [-> | ->]]; cbn [firstn app];
    (apply yields_invalid;
     [ cbn [nul_terminated In] in *; tauto
     | match goal with
       | |- well_formed_len ?s = None =>
           destruct (well_formed_len s) as [m|] eqn:Hw; [|reflexivity];
           exfalso; apply well_formed_len_row in Hw;
           rewrite ?get_0, ?get_1, ?get_2, ?get_3 in Hw;
           unfold table_row in Hrow, Hw; lia
       end
     | rewrite get_0, Hcap; split; [lia|split] ]).
  - intros i Hi. lia.
  - right. exists c. split; [reflexivity|exact Hend].
  - intros i Hi. replace i with 1 by lia.
    exists b1. split; [reflexivity|].
    apply cont_illegal. unfold table_row in Hrow. lia.
  - right. exists c. split; [reflexivity|exact Hend].
  - intros i Hi. assert (Hcases : i = 1 \/ i = 2) by lia.
    destruct Hcases as [-> | ->].
    + exists b1. split; [reflexivity|].
      apply cont_illegal. unfold table_row in Hrow. lia.
    + exists b2. split; [reflexivity|].
      apply cont_illegal. unfold table_row in Hrow. lia.
  - right. exists c. split; [reflexivity|exact Hend].
Qed.

(** X8. Resynchronisation after a sequence cut short: the first [j]
    bytes of the encoding of a scalar value, [j] less than its length,
    followed by a NUL or by a first byte, are Invalid with an illegal run
    of exactly [j]; the run ends in front of the byte that cut the
    sequence. *)
Theorem cut_short_sequence (cp : Z) (j : nat) (c : byte) (rest : cstr)
  (st : state) :
  scalar_value cp ->
  (0 < j < length (utf8_encode cp))%nat ->
  stopper c -> nul_terminated (c :: rest) ->
  yields (firstn j (utf8_encode cp) ++ c :: rest) st (Invalid (Z.of_nat j)).
Proof.
  intros [Hrange Hsur] Hj Hc Hrest.
  pose proof (encode_well_formed cp [x00] Hrange Hsur) as Hw.
  apply well_formed_len_row in Hw.
  revert Hj Hw. unfold utf8_encode. cbv zeta.
  destruct (Z.ltb_spec cp 0x80) as [H1|H1];
    [|destruct (Z.ltb_spec cp 0x800) as [H2|H2];
      [|destruct (Z.ltb_spec cp 0x10000) as [H3|H3]]];
    cbn [app length]; rewrite ?get_0, ?get_1, ?get_2, ?get_3;
    intros Hj Hrow.
  - lia.
  - match goal with
    | |- context [firstn j [?e0; ?e1]] =>
        replace (firstn j [e0; e1]) with (firstn j [e0; e1; x00; x00])
          by (assert (Hj1 : j = 1%nat) by lia; rewrite Hj1; reflexivity);
        apply (cut_short_row e0 e1 x00 x00 2); try assumption; try lia
    end.
  - match goal with
    | |- context [firstn j [?e0; ?e1; ?e2]] =>
        replace (firstn j [e0; e1; e2]) with (firstn j [e0; e1; e2; x00])
          by (assert (Hj1 : j = 1%nat \/ j = 2%nat) by lia;
              destruct Hj1 as [Hj1|Hj1]; rewrite Hj1; reflexivity);
        apply (cut_short_row e0 e1 e2 x00 3); try assumption; try lia
    end.
  - match goal with
    | |- context [firstn j [?e0; ?e1; ?e2; ?e3]] =>
        apply (cut_short_row e0 e1 e2 e3 4); try assumption; try lia
    end.
Qed.

Lemma cut_short_sequence_euro :
  scalar_value 0x20AC /\
  (0 < 2 < length (utf8_encode 0x20AC))%nat /\
  stopper x41 /\ nul_terminated [x41; x00] /\
  yields [xe2; x82; x41; x00] (mkState 0 0 []) (Invalid 2).
Proof.
  assert (H1 : scalar_value 0x20AC) by (unfold scalar_value; lia).
  assert (H2 : (0 < 2 < length (utf8_encode 0x20AC))%nat)
    by (cbn [utf8_encode length]; change (length (utf8_encode 0x20AC))
          with 3%nat; lia).
  assert (H3 : stopper x41)
    by (right; left; change (val x41) with 0x41; lia).
  assert (H4 : nul_terminated [x41; x00]) by (right; left; reflexivity).
  split; [exact H1|]. split; [exact H2|]. split; [exact H3|].
  split; [exact H4|].
  exact (cut_short_sequence 0x20AC 2 x41 [x00] (mkState 0 0 [])
           H1 H2 H3 H4).
Defined.

(** ** The three kinds of byte *)

(** X9. The macros split the bytes three ways: every byte is a first
    byte ([is_utf8firstb]), or a continuation byte ([is_utf8tail], whose
    mask test holds exactly on 80-BF), or one of C0, C1, F5-FF, and never
    two of these at once. *)
Theorem byte_kinds (b : byte) :
  (is_utf8tail b = true <-> 0x80 <= val b <= 0xBF) /\
  ((is_utf8firstb b = true /\ is_utf8tail b = false /\
    ~ (0xC0 <= val b <= 0xC1 \/ 0xF5 <= val b)) \/
   (is_utf8firstb b = false /\ is_utf8tail b = true /\
    ~ (0xC0 <= val b <= 0xC1 \/ 0xF5 <= val b)) \/
   (is_utf8firstb b = false /\ is_utf8tail b = false /\
    (0xC0 <= val b <= 0xC1 \/ 0xF5 <= val b))).
Proof.
  pose proof (val_bound b) as Hb.
  rewrite is_utf8tail_cont.
  split; [apply is_cont_range|].
  destruct (is_utf8firstb b) eqn:Hf.
  - left. apply is_utf8firstb_first_byte in Hf. unfold first_byte in Hf.
    split; [reflexivity|]. split; [|lia].
    destruct (is_cont b) eqn:Hc; [|reflexivity].
    apply is_cont_range in Hc. lia.
  - right. apply not_first_byte in Hf. unfold first_byte in Hf.
    destruct (is_cont b) eqn:Hc.
    + left. apply is_cont_range in Hc.
      split; [reflexivity|]. split; [reflexivity|lia].
    + right. split; [reflexivity|]. split; [reflexivity|].
      assert (Hnc : ~ (0x80 <= val b <= 0xBF))
        by (rewrite <- is_cont_range; congruence).
      lia.
Qed.

(** ** What a call loads *)

Lemma reads_only_trans P st1 st2 st3 :
  reads_only P st1 st2 -> reads_only P st2 st3 -> reads_only P st1 st3.
Proof.
  intros H12 H23. induction H23 as [|st2 st3 i _ IH Hi]; [exact H12|].
  apply reads_more; [apply IH; exact H12|exact Hi].
Qed.

Lemma reads_only_impl (P Q : Z -> Prop) st st' :
  (forall i, P i -> Q i) -> reads_only P st st' -> reads_only Q st st'.
Proof.
  intros HPQ H. induction H as [|st st' i _ IH Hi]; [apply reads_done|].
  apply reads_more; [exact IH|apply HPQ; exact Hi].
Qed.

Lemma reads_only_events P st st' :
  reads_only P st st' ->
  exists evs,
    st' = mkState (illlen_obj st) (errno st) (evs ++ trace st) /\
    forall e, In e evs -> exists i, e = EvRead i /\ P i.
Proof.
  intros H. induction H as [st|st st' i _ (evs & -> & Hall) Hi].
  - exists []. split; [destruct st; reflexivity|intros e []].
  - exists (EvRead i :: evs). split; [reflexivity|].
    intros e [<-|Hin]; [exists i; auto|auto].
Qed.

Lemma load_reads s i st c st' :
  load s i st = Ok c st' -> st' = log (EvRead i) st /\ c = get s i.
Proof.
  unfold load, get. destruct (byte_at s i) as [b|]; [|discriminate].
  intros [= <- <-]. auto.
Qed.

Lemma cond_reads_at (P : Z -> Prop) s i (f : byte -> bool) (F : Prop) :
  P i -> (f (get s i) = true -> F) ->
  cond_reads P (c <- load s i ;; ret (f c)) F.
Proof.
  intros Hi HF st x st'. unfold bind.
  destruct (load s i st) as [c st1| |] eqn:Hload; try discriminate.
  apply load_reads in Hload. destruct Hload as [-> ->].
  intros [= <- <-]. split; [|exact HF].
  apply reads_more; [apply reads_done|exact Hi].
Qed.

Lemma cond_reads_tail P s i :
  P i -> cond_reads P (tail_at s i) (0x80 <= val (get s i) <= 0xBF).
Proof.
  intros Hi. apply cond_reads_at; [exact Hi|].
  rewrite is_utf8tail_cont. apply is_cont_range.
Qed.

Lemma cond_reads_ge P s i lo :
  P i -> cond_reads P (ge_at s i lo) (lo <= val (get s i)).
Proof.
  intros Hi. apply (cond_reads_at P s i (fun c => lo <=? val c)); [exact Hi|].
  apply Z.leb_le.
Qed.

Lemma cond_reads_le P s i hi :
  P i -> cond_reads P (le_at s i hi) (val (get s i) <= hi).
Proof.
  intros Hi. apply (cond_reads_at P s i (fun c => val c <=? hi)); [exact Hi|].
  apply Z.leb_le.
Qed.

Lemma cond_reads_and P a b F G :
  cond_reads P a F -> (F -> cond_reads P b G) ->
  cond_reads P (a &&& b) (F /\ G).
Proof.
  intros Ha Hb st x st'. unfold andM, bind.
  destruct (a st) as [xa st1| |] eqn:Ea; try discriminate.
  destruct (Ha _ _ _ Ea) as [Hr1 HF].
  destruct xa.
  - intros Eb. destruct (Hb (HF eq_refl) _ _ _ Eb) as [Hr2 HG].
    split; [eapply reads_only_trans; eassumption|].
    intros Hx. split; [exact (HF eq_refl)|exact (HG Hx)].
  - intros [= <- <-]. split; [exact Hr1|discriminate].
Qed.

Lemma guarded_1 s : guarded s 1.
Proof. split; [lia|]. intros j Hj. lia. Qed.

Lemma guarded_next s i :
  guarded s i -> 0x80 <= val (get s i) <= 0xBF -> guarded s (i + 1).
Proof.
  intros [Hi Hbefore] Hc. split; [lia|].
  intros j Hj. destruct (Z.eq_dec j i) as [->|Hne]; [exact Hc|].
  apply Hbefore. lia.
Qed.

(** The conditions of the branches load at 1 .. n-1, each index behind
    continuation bytes only. *)
Lemma cond_reads_tails1 s n :
  2 <= n -> cond_reads (fun i => guarded s i /\ i < n) (tail_at s 1) True.
Proof.
  intros Hn st x st' H.
  assert (H1 : guarded s 1 /\ 1 < n) by (split; [apply guarded_1|lia]).
  destruct (cond_reads_tail (fun i => guarded s i /\ i < n) s 1 H1
              st x st' H) as [Hr _].
  split; [exact Hr|auto].
Qed.

Lemma cond_reads_tails2 s n :
  3 <= n ->
  cond_reads (fun i => guarded s i /\ i < n) (tail_at s 1 &&& tail_at s 2)
    True.
Proof.
  intros Hn st x st' H.
  assert (Hc : cond_reads (fun i => guarded s i /\ i < n)
                 (tail_at s 1 &&& tail_at s 2)
                 (0x80 <= val (get s 1) <= 0xBF /\
                  0x80 <= val (get s 2) <= 0xBF)).
  { apply cond_reads_and.
    - apply cond_reads_tail. split; [apply guarded_1|lia].
    - intros H1. apply cond_reads_tail.
      split; [apply (guarded_next s 1 (guarded_1 s) H1)|lia]. }
  destruct (Hc st x st' H) as [Hr _]. split; [exact Hr|auto].
Qed.

Lemma cond_reads_tails3 s n :
  4 <= n ->
  cond_reads (fun i => guarded s i /\ i < n)
    (tail_at s 1 &&& tail_at s 2 &&& tail_at s 3) True.
Proof.
  intros Hn st x st' H.
  assert (Hc : cond_reads (fun i => guarded s i /\ i < n)
                 (tail_at s 1 &&& tail_at s 2 &&& tail_at s 3)
                 ((0x80 <= val (get s 1) <= 0xBF /\
                   0x80 <= val (get s 2) <= 0xBF) /\
                  0x80 <= val (get s 3) <= 0xBF)).
  { apply cond_reads_and; [apply cond_reads_and|].
    - apply cond_reads_tail. split; [apply guarded_1|lia].
    - intros H1. apply cond_reads_tail.
      split; [apply (guarded_next s 1 (guarded_1 s) H1)|lia].
    - intros [H1 H2]. apply cond_reads_tail. split; [|lia].
      apply (guarded_next s 2); [|exact H2].
      apply (guarded_next s 1 (guarded_1 s) H1). }
  destruct (Hc st x st' H) as [Hr _]. split; [exact Hr|auto].
Qed.

Lemma cond_reads_range s n lo hi :
  2 <= n ->
  cond_reads (fun i => guarded s i /\ i < n)
    (ge_at s 1 lo &&& le_at s 1 hi)
    (lo <= val (get s 1) /\ val (get s 1) <= hi).
Proof.
  intros Hn. apply cond_reads_and.
  - apply cond_reads_ge. split; [apply guarded_1|lia].
  - intros _. apply cond_reads_le. split; [apply guarded_1|lia].
Qed.

Lemma cond_reads_range_tail s n lo hi :
  3 <= n -> 0x80 <= lo -> hi <= 0xBF ->
  cond_reads (fun i => guarded s i /\ i < n)
    (ge_at s 1 lo &&& le_at s 1 hi &&& tail_at s 2)
    (0x80 <= val (get s 1) <= 0xBF /\ 0x80 <= val (get s 2) <= 0xBF).
Proof.
  intros Hn Hlo Hhi st x st' H.
  assert (Hc : cond_reads (fun i => guarded s i /\ i < n)
                 (ge_at s 1 lo &&& le_at s 1 hi &&& tail_at s 2)
                 ((lo <= val (get s 1) /\ val (get s 1) <= hi) /\
                  0x80 <= val (get s 2) <= 0xBF)).
  { apply cond_reads_and; [apply cond_reads_range; lia|].
    intros [H1 H2]. apply cond_reads_tail. split; [|lia].
    apply (guarded_next s 1 (guarded_1 s)). lia. }
  destruct (Hc st x st' H) as [Hr HF]. split; [exact Hr|].
  intros Hx. destruct (HF Hx) as [[H1 H2] H3]. lia.
Qed.

Lemma cond_reads_range_tails2 s n lo hi :
  4 <= n -> 0x80 <= lo -> hi <= 0xBF ->
  cond_reads (fun i => guarded s i /\ i < n)
    (ge_at s 1 lo &&& le_at s 1 hi &&& tail_at s 2 &&& tail_at s 3) True.
Proof.
  intros Hn Hlo Hhi st x st' H.
  assert (Hc : cond_reads (fun i => guarded s i /\ i < n)
                 (ge_at s 1 lo &&& le_at s 1 hi &&& tail_at s 2
                  &&& tail_at s 3)
                 ((0x80 <= val (get s 1) <= 0xBF /\
                   0x80 <= val (get s 2) <= 0xBF) /\
                  0x80 <= val (get s 3) <= 0xBF)).
  { apply cond_reads_and; [apply cond_reads_range_tail; lia|].
    intros [H1 H2]. apply cond_reads_tail. split; [|lia].
    apply (guarded_next s 2); [|exact H2].
    apply (guarded_next s 1 (guarded_1 s) H1). }
  destruct (Hc st x st' H) as [Hr _]. split; [exact Hr|auto].
Qed.

(** The loop loads at [len]+1 .. [k], where [k] is the length it
    returns. *)
Lemma count_loop_reads s max fuel :
  forall len c st k st',
    count_loop fuel s max len c st = Ok k st' ->
    len <= k /\ reads_only (fun i => len < i <= k) st st'.
Proof.
  induction fuel as [|fuel IH]; intros len c st k st'; cbn [count_loop];
    destruct (run_continues c len max).
  - discriminate.
  - intros [= <- <-]. split; [lia|apply reads_done].
  - unfold bind.
    destruct (load s (len + 1) st) as [c' st1| |] eqn:Hload;
      try discriminate.
    apply load_reads in Hload. destruct Hload as [-> _].
    intros Hloop. destruct (IH _ _ _ _ _ Hloop) as [Hk Hr].
    split; [lia|].
    apply (reads_only_trans _ _ (log (EvRead (len + 1)) st)).
    + apply reads_more; [apply reads_done|]. cbv beta. lia.
    + eapply reads_only_impl; [|exact Hr]. cbv beta. intros i Hi. lia.
  - intros [= <- <-]. split; [lia|apply reads_done].
Qed.

Lemma count_illegal_sequences_reads s max st u st' :
  count_illegal_sequences s max st = Ok u st' ->
  exists st2 k,
    1 <= k /\
    reads_only (fun i => 1 <= i <= k) st st2 /\
    st' = mkState k (errno st2) (EvStoreIlllen k :: trace st2).
Proof.
  unfold count_illegal_sequences, bind.
  destruct (load s 1 st) as [c st1| |] eqn:Hload; try discriminate.
  apply load_reads in Hload. destruct Hload as [-> _].
  destruct (count_loop (length s) s max 1 c (log (EvRead 1) st))
    as [k st2| |] eqn:Hloop; try discriminate.
  destruct (count_loop_reads _ _ _ _ _ _ _ _ Hloop) as [Hk Hr].
  unfold store_illlen. intros [= _ <-].
  exists st2, k. split; [exact Hk|]. split; [|reflexivity].
  apply (reads_only_trans _ _ (log (EvRead 1) st)).
  - apply reads_more; [apply reads_done|]. cbv beta. lia.
  - eapply reads_only_impl; [|exact Hr]. cbv beta. intros i Hi. lia.
Qed.

(** One branch, entered after the load of [s[0]]. *)
Lemma branch_reads s cond n max F st0 r st' :
  2 <= n ->
  cond_reads (fun i => guarded s i /\ i < n) cond F ->
  (ok <- cond ;;
   if ok then ret n else count_illegal_sequences s max ;;; ret 0)
    (log (EvRead 0) st0) = Ok r st' ->
  (r <> 0 /\ reads_only (fun i => 0 <= i < r) st0 st') \/
  (r = 0 /\
   exists st1 st2 k,
     reads_only (fun i => i = 0 \/ (guarded s i /\ i < n)) st0 st1 /\
     reads_only (fun i => 1 <= i <= k) st1 st2 /\
     st' = mkState k (errno st2) (EvStoreIlllen k :: trace st2)).
Proof.
  intros Hn Hcond. unfold bind at 1.
  destruct (cond (log (EvRead 0) st0)) as [ok st1| |] eqn:Ec;
    try discriminate.
  destruct (Hcond _ _ _ Ec) as [Hr _].
  destruct ok.
  - intros [= <- <-]. left. split; [lia|].
    apply (reads_only_trans _ _ (log (EvRead 0) st0)).
    + apply reads_more; [apply reads_done|]. cbv beta. lia.
    + eapply reads_only_impl; [|exact Hr].
      cbv beta. intros i [[Hi _] Hlt]. lia.
  - unfold bind.
    destruct (count_illegal_sequences s max st1) as [u st2| |] eqn:Ek;
      try discriminate.
    intros [= <- <-]. right. split; [reflexivity|].
    destruct (count_illegal_sequences_reads _ _ _ _ _ Ek)
      as (st3 & k & _ & Hloop & Hst).
    exists st1, st3, k. split; [|split; assumption].
    apply (reads_only_trans _ _ (log (EvRead 0) st0)).
    + apply reads_more; [apply reads_done|]. cbv beta. left. reflexivity.
    + eapply reads_only_impl; [|exact Hr]. cbv beta. auto.
Qed.

(** The loads of the body: below the return value when it is not 0;
    otherwise at 0, at indexes behind continuation bytes below the cap,
    and then at 1 .. k for the stored length [k]. *)
Lemma body_reads s st r st' :
  utf8clen_body s st = Ok r st' ->
  (r <> 0 /\ reads_only (fun i => 0 <= i < r) st st') \/
  (r = 0 /\
   exists st1 st2 k,
     reads_only
       (fun i => i = 0 \/ (guarded s i /\ i < illegal_cap (get s 0)))
       st st1 /\
     reads_only (fun i => 1 <= i <= k) st1 st2 /\
     st' = mkState k (errno st2) (EvStoreIlllen k :: trace st2)).
Proof.
  unfold utf8clen_body. unfold bind at 1.
  destruct (load s 0 st) as [c st0| |] eqn:Hload; try discriminate.
  apply load_reads in Hload. destruct Hload as [-> ->].
  pose proof (val_bound (get s 0)) as Hb.
  set (v := val (get s 0)) in *.
  unfold illegal_cap. cbv zeta. fold v.
  change ((0xC2 <=? v) && (v <=? 0xDF)) with (in_range 0xC2 0xDF v).
  change ((0xE1 <=? v) && (v <=? 0xEC)) with (in_range 0xE1 0xEC v).
  change ((0xEE <=? v) && (v <=? 0xEF)) with (in_range 0xEE 0xEF v).
  change ((0xF1 <=? v) && (v <=? 0xF3)) with (in_range 0xF1 0xF3 v).
  assert (Hlead : v <= 0x7F \/ 0x80 <= v <= 0xC1 \/ 0xC2 <= v <= 0xDF \/
                  v = 0xE0 \/ 0xE1 <= v <= 0xEC \/ v = 0xED \/
                  0xEE <= v <= 0xEF \/ v = 0xF0 \/ 0xF1 <= v <= 0xF3 \/
                  v = 0xF4 \/ 0xF5 <= v) by lia.
  assert (Hnever :
            (count_illegal_sequences s SIZE_MAX ;;; ret 0)
              (log (EvRead 0) st) = Ok r st' ->
            (r <> 0 /\ reads_only (fun i => 0 <= i < r) st st') \/
            (r = 0 /\
             exists st1 st2 k,
               reads_only
                 (fun i => i = 0 \/ (guarded s i /\ i < SIZE_MAX)) st st1 /\
               reads_only (fun i => 1 <= i <= k) st1 st2 /\
               st' = mkState k (errno st2) (EvStoreIlllen k :: trace st2))).
  { unfold bind.
    destruct (count_illegal_sequences s SIZE_MAX (log (EvRead 0) st))
      as [u st2| |] eqn:Ek; try discriminate.
    intros [= <- <-]. right. split; [reflexivity|].
    destruct (count_illegal_sequences_reads _ _ _ _ _ Ek)
      as (st3 & k & _ & Hloop & Hst).
    exists (log (EvRead 0) st), st3, k. split; [|split; assumption].
    apply reads_more; [apply reads_done|]. left. reflexivity. }
  repeat (destruct Hlead as [Hlead|Hlead]); lead_tests v.
  - intros [= <- <-]. left. split; [lia|].
    apply reads_more; [apply reads_done|]. cbv beta. lia.
  - exact Hnever.
  - apply (branch_reads s _ 2 2 True); [lia|apply cond_reads_tails1; lia].
  - eapply (branch_reads s _ 3 3); [lia|].
    apply cond_reads_range_tail; lia.
  - apply (branch_reads s _ 3 3 True); [lia|apply cond_reads_tails2; lia].
  - eapply (branch_reads s _ 3 3); [lia|].
    apply cond_reads_range_tail; lia.
  - apply (branch_reads s _ 3 3 True); [lia|apply cond_reads_tails2; lia].
  - apply (branch_reads s _ 4 4 True); [lia|].
    apply cond_reads_range_tails2; lia.
  - apply (branch_reads s _ 4 4 True); [lia|apply cond_reads_tails3; lia].
  - apply (branch_reads s _ 4 4 True); [lia|].
    apply cond_reads_range_tails2; lia.
  - exact Hnever.
Qed.

(** X10. What a call loads: on a NUL-terminated string, a call that
    returns [n] in 1..4 has loaded only bytes of the character, at
    indexes below [n]; a call that returns 0 and stores [k] has loaded
    only the [k] bytes of the illegal run and the byte that follows it,
    at indexes up to [k]. *)
Theorem read_footprint (s : cstr) (st : state) :
  nul_terminated s ->
  exists r st' evs,
    utf8clen (Ref s) (Ref IllLen) st = Ok r st' /\
    trace st' = evs ++ trace st /\
    forall i, In (EvRead i) evs ->
      0 <= i /\ (r <> 0 -> i < r) /\ (r = 0 -> i <= illlen_obj st').
Proof.
  intros Hs.
  destruct (utf8clen_spec s st Hs) as (r & st' & Hcall & Hpost).
  exists r, st'.
  destruct (body_reads s st r st' Hcall)
    as [[Hr Hreads]|(-> & st1 & st2 & k & Hreads1 & Hreads2 & Hst)].
  - destruct (reads_only_events _ _ _ Hreads) as (evs & -> & Hall).
    exists evs. split; [exact Hcall|]. split; [reflexivity|].
    intros i Hin. destruct (Hall _ Hin) as (j & [= <-] & Hj). lia.
  - destruct (well_formed_len s) as [n|] eqn:Hw.
    { destruct Hpost as (Hn & _).
      apply well_formed_len_range in Hw. lia. }
    destruct Hpost as (_ & k' & st1' & evs' & _ & Hst' & Hrun).
    assert (Hk : k' = k) by (rewrite Hst in Hst'; congruence).
    rewrite Hk in Hrun. clear Hst' Hk.
    destruct (reads_only_events _ _ _ Hreads1) as (evs1 & -> & Hall1).
    destruct (reads_only_events _ _ _ Hreads2) as (evs2 & -> & Hall2).
    cbn [trace errno illlen_obj] in Hst. subst st'.
    exists (EvStoreIlllen k :: evs2 ++ evs1).
    split; [exact Hcall|].
    split; [cbn [trace app]; rewrite <- app_assoc; reflexivity|].
    cbn [illlen_obj].
    destruct Hrun as (Hk1 & Hbytes & Hstop).
    intros i [Hin|Hin]; [discriminate Hin|].
    apply in_app_or in Hin. destruct Hin as [Hin|Hin].
    + destruct (Hall2 _ Hin) as (j & [= <-] & Hj). lia.
    + destruct (Hall1 _ Hin) as (j & [= <-] & [->|[[Hj Hcont] Hcap]]);
        [lia|].
      split; [lia|]. split; [intros H; contradiction H; reflexivity|].
      intros _. destruct (Z_le_gt_dec i k) as [|Hgt]; [assumption|].
      exfalso.
      destruct Hstop as [Hcapk|(b & Hb & Hend)]; [lia|].
      specialize (Hcont k ltac:(lia)).
      rewrite (get_byte_at _ _ _ Hb) in Hcont.
      destruct (cont_illegal b Hcont) as [Hnz Hnf].
      destruct Hend as [H|H]; [contradiction|congruence].
Qed.

Lemma read_footprint_beyond_ceiling :
  nul_terminated [xf4; x90; x80; x80; x41; x00] /\
  exists r st' evs,
    utf8clen (Ref [xf4; x90; x80; x80; x41; x00]) (Ref IllLen)
      (mkState 0 0 []) = Ok r st' /\
    trace st' = evs ++ [] /\
    forall i, In (EvRead i) evs ->
      0 <= i /\ (r <> 0 -> i < r) /\ (r = 0 -> i <= illlen_obj st').
Proof.
  assert (H : nul_terminated [xf4; x90; x80; x80; x41; x00])
    by (right; right; right; right; right; left; reflexivity).
  split; [exact H|].
  exact (read_footprint [xf4; x90; x80; x80; x41; x00] (mkState 0 0 []) H).
Defined.

(** ** Arrays without a terminator *)

Lemma load_at_0 b0 l st :
  load (b0 :: l) 0 st = Ok b0 (log (EvRead 0) st).
Proof. reflexivity. Qed.
Lemma load_at_1 b0 b1 l st :
  load (b0 :: b1 :: l) 1 st = Ok b1 (log (EvRead 1) st).
Proof. reflexivity. Qed.
Lemma load_at_2 b0 b1 b2 l st :
  load (b0 :: b1 :: b2 :: l) 2 st = Ok b2 (log (EvRead 2) st).
Proof. reflexivity. Qed.
Lemma load_at_3 b0 b1 b2 b3 l st :
  load (b0 :: b1 :: b2 :: b3 :: l) 3 st = Ok b3 (log (EvRead 3) st).
Proof. reflexivity. Qed.

Lemma is_utf8tail_true b : 0x80 <= val b <= 0xBF -> is_utf8tail b = true.
Proof. intros H. rewrite is_utf8tail_cont. apply is_cont_range. exact H. Qed.

(** Runs the conditions of a branch on a string whose first bytes are
    given and satisfy the tests. *)
Ltac run_conditions :=
  unfold andM, tail_at, ge_at, le_at, bind, ret;
  rewrite ?load_at_1, ?load_at_2, ?load_at_3;
  repeat
    (match goal with
     | |- context [is_utf8tail ?b] =>
         rewrite (is_utf8tail_true b) by lia
     | |- context [?a <=? ?b] =>
         replace (a <=? b) with true by (symmetry; apply Z.leb_le; lia)
     end;
     rewrite ?load_at_1, ?load_at_2, ?load_at_3).

(** A row of Table 3-7 is accepted whatever follows it, terminator or
    not. *)
Lemma row_accepted b0 b1 b2 b3 n rest st :
  table_row (val b0) (val b1) (val b2) (val b3) n ->
  exists st',
    utf8clen_body (firstn (Z.to_nat n) [b0; b1; b2; b3] ++ rest) st
    = Ok n st'.
Proof.
  unfold table_row.
  intros [(Hn & H0)|[(Hn & H0 & H1)|[(Hn & H0 & H1 & H2 & Hlo & Hhi)
                   |(Hn & H0 & H1 & H2 & H3 & Hlo & Hhi)]]]; subst n;
    [ change (Z.to_nat 1) with 1%nat | change (Z.to_nat 2) with 2%nat
    | change (Z.to_nat 3) with 3%nat | change (Z.to_nat 4) with 4%nat ];
    cbn [firstn app];
    unfold utf8clen_body; unfold bind at 1; rewrite load_at_0.
  - lead_tests (val b0). eexists. reflexivity.
  - change ((0xC2 <=? val b0) && (val b0 <=? 0xDF))
      with (in_range 0xC2 0xDF (val b0)).
    lead_tests (val b0). run_conditions. eexists. reflexivity.
  - change ((0xC2 <=? val b0) && (val b0 <=? 0xDF))
      with (in_range 0xC2 0xDF (val b0)).
    change ((0xE1 <=? val b0) && (val b0 <=? 0xEC))
      with (in_range 0xE1 0xEC (val b0)).
    change ((0xEE <=? val b0) && (val b0 <=? 0xEF))
      with (in_range 0xEE 0xEF (val b0)).
    assert (Hlead : val b0 = 0xE0 \/ 0xE1 <= val b0 <= 0xEC \/
                    val b0 = 0xED \/ 0xEE <= val b0 <= 0xEF) by lia.
    repeat (destruct Hlead as [Hlead|Hlead]);
      lead_tests (val b0); run_conditions; eexists; reflexivity.
  - change ((0xC2 <=? val b0) && (val b0 <=? 0xDF))
      with (in_range 0xC2 0xDF (val b0)).
    change ((0xE1 <=? val b0) && (val b0 <=? 0xEC))
      with (in_range 0xE1 0xEC (val b0)).
    change ((0xEE <=? val b0) && (val b0 <=? 0xEF))
      with (in_range 0xEE 0xEF (val b0)).
    change ((0xF1 <=? val b0) && (val b0 <=? 0xF3))
      with (in_range 0xF1 0xF3 (val b0)).
    assert (Hlead : val b0 = 0xF0 \/ 0xF1 <= val b0 <= 0xF3 \/
                    val b0 = 0xF4) by lia.
    repeat (destruct Hlead as [Hlead|Hlead]);
      lead_tests (val b0); run_conditions; eexists; reflexivity.
Qed.

Lemma accepted_reads s st n st' :
  utf8clen_body s st = Ok n st' -> n <> 0 ->
  exists evs,
    st' = mkState (illlen_obj st) (errno st) (evs ++ trace st) /\
    forall e, In e evs -> exists i, e = EvRead i /\ 0 <= i < n.
Proof.
  intros Hcall Hn.
  destruct (body_reads s st n st' Hcall) as [[_ Hreads]|[H0 _]]; [|lia].
  apply reads_only_events in Hreads. exact Hreads.
Qed.

(** X11. A complete character needs no terminator: on the encoding of a
    scalar value followed by anything at all, even by the end of the
    array, the call returns the length [n] of the encoding after loading
    only at indexes below [n]; [*illlen] and [errno] keep their values. *)
Theorem valid_without_terminator (cp : Z) (rest : cstr) (st : state) :
  scalar_value cp ->
  exists st' evs,
    utf8clen (Ref (utf8_encode cp ++ rest)) (Ref IllLen) st
    = Ok (Z.of_nat (length (utf8_encode cp))) st' /\
    st' = mkState (illlen_obj st) (errno st) (evs ++ trace st) /\
    forall e, In e evs ->
      exists i, e = EvRead i /\ 0 <= i < Z.of_nat (length (utf8_encode cp)).
Proof.
  intros [Hrange Hsur].
  pose proof (encode_well_formed cp [x00] Hrange Hsur) as Hw.
  apply well_formed_len_row in Hw.
  assert (Hgoal : exists st',
             utf8clen_body (utf8_encode cp ++ rest) st
             = Ok (Z.of_nat (length (utf8_encode cp))) st').
  { revert Hw. unfold utf8_encode. cbv zeta.
    destruct (Z.ltb_spec cp 0x80) as [H1|H1];
      [|destruct (Z.ltb_spec cp 0x800) as [H2|H2];
        [|destruct (Z.ltb_spec cp 0x10000) as [H3|H3]]];
      cbn [app length]; rewrite ?get_0, ?get_1, ?get_2, ?get_3;
      intros Hrow.
    - match goal with
      | |- context [utf8clen_body (?e0 :: rest)] =>
          exact (row_accepted e0 x00 x00 x00 1 rest st Hrow)
      end.
    - match goal with
      | |- context [utf8clen_body (?e0 :: ?e1 :: rest)] =>
          exact (row_accepted e0 e1 x00 x00 2 rest st Hrow)
      end.
    - match goal with
      | |- context [utf8clen_body (?e0 :: ?e1 :: ?e2 :: rest)] =>
          exact (row_accepted e0 e1 e2 x00 3 rest st Hrow)
      end.
    - match goal with
      | |- context [utf8clen_body (?e0 :: ?e1 :: ?e2 :: ?e3 :: rest)] =>
          exact (row_accepted e0 e1 e2 e3 4 rest st Hrow)
      end. }
  destruct Hgoal as (st' & Hcall).
  assert (Hn : Z.of_nat (length (utf8_encode cp)) <> 0).
  { unfold utf8_encode. cbv zeta.
    destruct (cp <? 0x80); [|destruct (cp <? 0x800);
                              [|destruct (cp <? 0x10000)]];
      discriminate. }
  destruct (accepted_reads _ _ _ _ Hcall Hn) as (evs & Hst & Hall).
  exists st', evs. split; [exact Hcall|]. split; assumption.
Qed.

Lemma valid_without_terminator_copyright :
  scalar_value 0xA9 /\
  exists st' evs,
    utf8clen (Ref [xc2; xa9]) (Ref IllLen) (mkState 0 0 []) = Ok 2 st' /\
    st' = mkState 0 0 (evs ++ []) /\
    forall e, In e evs -> exists i, e = EvRead i /\ 0 <= i < 2.
Proof.
  assert (H : scalar_value 0xA9) by (unfold scalar_value; lia).
  split; [exact H|].
  exact (valid_without_terminator 0xA9 [] (mkState 0 0 []) H).
Defined.

(** X12. The terminator is needed for anything else: in an array that
    ends right after a byte above 7F the call loads [s[1]], outside the
    array, and in an empty array it loads [s[0]]. *)
Theorem lone_byte_out_of_bounds (b : byte) (st : state) :
  0x7F < val b ->
  utf8clen (Ref [b]) (Ref IllLen) st = OutOfBounds 1 /\
  utf8clen (Ref []) (Ref IllLen) st = OutOfBounds 0.
Proof.
  intros Hb. split; [|reflexivity].
  destruct b; first [ reflexivity | exfalso; vm_compute in Hb; discriminate ].
Qed.

Lemma lone_byte_out_of_bounds_c3 :
  0x7F < val xc3 /\
  utf8clen (Ref [xc3]) (Ref IllLen) (mkState 0 0 []) = OutOfBounds 1 /\
  utf8clen (Ref []) (Ref IllLen) (mkState 0 0 []) = OutOfBounds 0.
Proof.
  assert (H : 0x7F < val xc3) by (change (val xc3) with 0xC3; lia).
  split; [exact H|].
  exact (lone_byte_out_of_bounds xc3 (mkState 0 0 []) H).
Defined.

(** ** Two calls in a row *)

(** The bytes of an encoding as a row of Table 3-7, padded with NUL. *)
Lemma encoding_row cp :
  scalar_value cp ->
  exists b0 b1 b2 b3,
    table_row (val b0) (val b1) (val b2) (val b3)
      (Z.of_nat (length (utf8_encode cp))) /\
    utf8_encode cp
    = firstn (length (utf8_encode cp)) [b0; b1; b2; b3].
Proof.
  intros [Hrange Hsur].
  pose proof (encode_well_formed cp [x00] Hrange Hsur) as Hw.
  apply well_formed_len_row in Hw.
  revert Hw. unfold utf8_encode. cbv zeta.
  destruct (Z.ltb_spec cp 0x80) as [H1|H1];
    [|destruct (Z.ltb_spec cp 0x800) as [H2|H2];
      [|destruct (Z.ltb_spec cp 0x10000) as [H3|H3]]];
    cbn [app length]; rewrite ?get_0, ?get_1, ?get_2, ?get_3;
    intros Hrow.
  - eexists _, x00, x00, x00. split; [exact Hrow|reflexivity].
  - eexists _, _, x00, x00. split; [exact Hrow|reflexivity].
  - eexists _, _, _, x00. split; [exact Hrow|reflexivity].
  - eexists _, _, _, _. split; [exact Hrow|reflexivity].
Qed.

(** An encoding starts with a NUL or a first byte. *)
Lemma encoding_head cp :
  scalar_value cp ->
  exists e tl, utf8_encode cp = e :: tl /\ stopper e.
Proof.
  intros Hcp.
  destruct (encoding_row cp Hcp) as (b0 & b1 & b2 & b3 & Hrow & Henc).
  assert (Hstop : stopper b0)
    by (right; unfold first_byte; unfold table_row in Hrow; lia).
  destruct (utf8_encode cp) as [|e tl] eqn:E.
  - exfalso. unfold table_row in Hrow. cbn [length Z.of_nat] in Hrow. lia.
  - exists e, tl. split; [reflexivity|].
    cbn [length firstn] in Henc. injection Henc as -> _. exact Hstop.
Qed.

(** X13. Two calls resynchronise: when a character cut after [j] bytes
    is followed by a complete character, the call at the cursor is
    Invalid with a run of [j], and the call at the cursor moved by [j] is
    Valid with the length of the complete character. *)
Theorem resynchronisation (cp1 cp2 : Z) (j : nat) (rest : cstr)
  (st st2 : state) :
  scalar_value cp1 -> scalar_value cp2 ->
  (0 < j < length (utf8_encode cp1))%nat ->
  nul_terminated rest ->
  yields (firstn j (utf8_encode cp1) ++ utf8_encode cp2 ++ rest) st
    (Invalid (Z.of_nat j)) /\
  yields
    (skipn j (firstn j (utf8_encode cp1) ++ utf8_encode cp2 ++ rest)) st2
    (Valid (Z.of_nat (length (utf8_encode cp2)))).
Proof.
  intros Hcp1 Hcp2 Hj Hrest.
  assert (Hs2 : nul_terminated (utf8_encode cp2 ++ rest))
    by (apply in_or_app; right; exact Hrest).
  split.
  - destruct (encoding_row cp1 Hcp1) as (b0 & b1 & b2 & b3 & Hrow & Henc).
    destruct (encoding_head cp2 Hcp2) as (e & tl & Hhead & Hstop).
    rewrite Hhead in *. cbn [app] in *.
    rewrite Henc, firstn_firstn.
    replace (Nat.min j (length (utf8_encode cp1))) with j by lia.
    apply (cut_short_row b0 b1 b2 b3 _ j e (tl ++ rest) st Hrow);
      [lia|lia|exact Hstop|exact Hs2].
  - assert (Hlen : length (firstn j (utf8_encode cp1)) = j)
      by (rewrite length_firstn; lia).
    rewrite skipn_app, Hlen, Nat.sub_diag.
    rewrite skipn_all2 by lia.
    cbn [app skipn].
    apply yields_valid; [exact Hs2|].
    destruct Hcp2 as [Hrange Hsur]. apply encode_well_formed; assumption.
Qed.

Lemma resynchronisation_euro_copyright :
  scalar_value 0x20AC /\ scalar_value 0xA9 /\
  (0 < 2 < length (utf8_encode 0x20AC))%nat /\
  nul_terminated [x00] /\
  yields [xe2; x82; xc2; xa9; x00] (mkState 0 0 []) (Invalid 2) /\
  yields [xc2; xa9; x00] (mkState 2 0 []) (Valid 2).
Proof.
  assert (H1 : scalar_value 0x20AC) by (unfold scalar_value; lia).
  assert (H2 : scalar_value 0xA9) by (unfold scalar_value; lia).
  assert (H3 : (0 < 2 < length (utf8_encode 0x20AC))%nat)
    by (change (length (utf8_encode 0x20AC)) with 3%nat; lia).
  assert (H4 : nul_terminated [x00]) by (left; reflexivity).
  split; [exact H1|]. split; [exact H2|]. split; [exact H3|].
  split; [exact H4|].
  exact (resynchronisation 0x20AC 0xA9 2 [x00] (mkState 0 0 [])
           (mkState 2 0 []) H1 H2 H3 H4).
Defined.
